(** * tweakle: an extract / tweak / load pipeline (main.go)

    A shallow embedding of [main.go].  Every function of the file is a Rocq
    function of the same name over an explicit program state: the open byte
    streams (a small heap, because readers are shared between a stage and the
    wrapper it returns) and the trace of the effects on the outside world
    (HTTP requests, BigQuery calls, the HTTP response).

    A Go function can return, panic, or end the process ([log.Fatal]); the
    three are the constructors of [outcome].  A Go result tuple
    [(value, error)] stays a tuple, with [option error] for the [error]
    interface ([None] is [nil]) and [option nat] for an [io.Reader] or
    [io.ReadCloser] interface value ([None] is the nil interface).

    The packages the program calls ([bufio], [encoding/csv], [unicode/utf8],
    [io]) are modelled in modules of their own, on byte strings; what lives
    outside the process (the HTTP transport, the zip and charset decoders,
    the regular-expression compiler, the JSON decoder, BigQuery, the Unicode
    tables beyond ASCII) is a field of the record [Env].

    Left out: what is written to the log and to standard output, and [main],
    which only starts the server. *)

From Stdlib Require Import ZArith Ascii String List Bool Lia.
From stdpp Require Import base option list gmap strings fin_maps.

Local Open Scope Z_scope.
Local Open Scope nat_scope.

(** ** Byte strings

    A Go [string] and a [[]byte] are both sequences of 8-bit bytes: [string]. *)

Definition LF : ascii := "010"%char.
Definition CR : ascii := "013"%char.
Definition QUOTE : ascii := "034"%char.
Definition COMMA : ascii := ","%char.

Module bytes.

(** [s[:n]] *)
Fixpoint take (n : nat) (s : string) : string :=
  match n, s with
  | S k, String c t => String c (take k t)
  | _, _ => EmptyString
  end.

(** [s[n:]] *)
Fixpoint drop (n : nat) (s : string) : string :=
  match n, s with
  | S k, String _ t => drop k t
  | _, _ => s
  end.

(** [bytes.IndexByte(s, c)]; [None] is -1. *)
Fixpoint IndexByte (s : string) (c : ascii) : option nat :=
  match s with
  | EmptyString => None
  | String x t => if Ascii.eqb x c then Some 0 else S <$> IndexByte t c
  end.

(** [s[len(s)-1]], when there is one. *)
Fixpoint last (s : string) : option ascii :=
  match s with
  | EmptyString => None
  | String c EmptyString => Some c
  | String _ t => last t
  end.

Definition starts_with (c : ascii) (s : string) : bool :=
  match s with
  | String x _ => Ascii.eqb x c
  | EmptyString => false
  end.

Definition ends_with (c : ascii) (s : string) : bool :=
  match last s with
  | Some x => Ascii.eqb x c
  | None => false
  end.

(** [strings.Join(l, sep)] *)
Fixpoint Join (l : list string) (sep : string) : string :=
  match l with
  | [] => ""
  | [x] => x
  | x :: t => x +:+ sep +:+ Join t sep
  end.

Fixpoint concat (l : list string) : string :=
  match l with
  | [] => ""
  | x :: t => x +:+ concat t
  end.

Fixpoint mem (c : ascii) (s : string) : bool :=
  match s with
  | EmptyString => false
  | String x t => Ascii.eqb x c || mem c t
  end.

End bytes.

(** ** Errors, outcomes, program state *)

Inductive error : Type :=
| io_EOF                                   (* io.EOF *)
| ErrClosed                                (* a Read on a closed stream *)
| ErrExternal (origin msg : string)        (* an error made by a collaborator *)
| ErrStatus (code : Z) (body : gmap string string)
    (* fmt.Errorf("Response failed with status code: %d and\nbody: %s\n", ...) *)
| ErrUnsupportedCall (call : string)       (* fmt.Errorf("unsupported call: %s", t.Call) *)
| ErrUnsupportedCharset (label : string).  (* charset: "unsupported charset: %q" *)

Definition is_EOF (e : option error) : bool :=
  match e with
  | Some io_EOF => true
  | _ => false
  end.

Inductive outcome (A : Type) : Type :=
| Returns (a : A)
| Panics (msg : string)
| Exits (code : Z).
Arguments Returns {A} a.
Arguments Panics {A} msg.
Arguments Exits {A} code.

(** An [io.Reader] / [io.ReadCloser] interface value: a handle into the heap
    of streams, or the nil interface. *)
Definition Reader : Type := option nat.

(** Who closes what: a stream either owns its source, or it is a
    [ChainedCloser{nr, c}], whose [Close] is [c.Close()]. *)
Inductive Chain : Type :=
| Own
| Over (c : Reader).

Record Stream : Type := {
  s_data : string;            (* the bytes not read yet *)
  s_end : option error;       (* what a Read says once they are gone; None is io.EOF *)
  s_closed : bool;
  s_nilsrc : bool;            (* a Read on it calls Read on a nil reader *)
  s_chain : Chain
}.

Inductive Event : Type :=
| EvHTTP (method url : string) (form : gmap string string) (contentType : bool)
| EvBQClient (projectID : string)
| EvBQRun (datasetID tableID : string) (schema : list string) (rows : string)
| EvBQWait
| EvSetHeader (key value : string)
| EvWriteHeader (status : Z)
| EvWrite (text : string).

Record State : Type := {
  streams : list Stream;
  trace : list Event
}.

Definition M (A : Type) : Type := State -> outcome A * State.

Definition ret {A} (a : A) : M A := fun σ => (Returns a, σ).

Definition bind {A B} (m : M A) (k : A -> M B) : M B :=
  fun σ =>
    match m σ with
    | (Returns a, σ') => k a σ'
    | (Panics msg, σ') => (Panics msg, σ')
    | (Exits c, σ') => (Exits c, σ')
    end.

#[global] Instance M_ret : MRet M := @ret.
#[global] Instance M_bind : MBind M := fun A B k m => bind m k.

Definition panic {A} (msg : string) : M A := fun σ => (Panics msg, σ).

(** [log.Fatal]: prints and calls [os.Exit(1)]; deferred calls do not run. *)
Definition log_Fatal {A} : M A := fun σ => (Exits 1%Z, σ).

(** [defer d; body]: [d] runs when [body] returns and while a panic of
    [body] unwinds, but not when the process exits. *)
Definition defer {A B} (d : M B) (body : M A) : M A :=
  fun σ =>
    match body σ with
    | (Returns a, σ') =>
        match d σ' with
        | (Returns _, σ'') => (Returns a, σ'')
        | (Panics msg, σ'') => (Panics msg, σ'')
        | (Exits c, σ'') => (Exits c, σ'')
        end
    | (Panics msg, σ') =>
        match d σ' with
        | (Returns _, σ'') => (Panics msg, σ'')
        | (Panics msg', σ'') => (Panics msg', σ'')
        | (Exits c, σ'') => (Exits c, σ'')
        end
    | (Exits c, σ') => (Exits c, σ')
    end.

Definition emit (ev : Event) : M unit :=
  fun σ => (Returns tt, {| streams := streams σ; trace := trace σ ++ [ev] |}).

Definition nil_dereference : string :=
  "runtime error: invalid memory address or nil pointer dereference".

(** A new stream; its handle is the next free index. *)
Definition alloc (s : Stream) : M nat :=
  fun σ => (Returns (length (streams σ)),
            {| streams := streams σ ++ [s]; trace := trace σ |}).

Definition set_stream (h : nat) (s : Stream) : M unit :=
  fun σ => (Returns tt, {| streams := <[h := s]> (streams σ); trace := trace σ |}).

(** The stream a method call on [r] reaches.  A call on the nil interface
    panics. *)
Definition deref (r : Reader) : M (nat * Stream) :=
  fun σ =>
    match r with
    | None => (Panics nil_dereference, σ)
    | Some h =>
        match streams σ !! h with
        | Some s => (Returns (h, s), σ)
        | None => (Panics nil_dereference, σ)
        end
    end.

(** What a sequence of [Read] calls on the stream can still deliver: the
    bytes, and the condition that ends them. *)
Definition readable (s : Stream) : string * option error :=
  if s_closed s then (""%string, Some ErrClosed) else (s_data s, s_end s).

Definition end_error (e : option error) : error :=
  match e with
  | Some err => err
  | None => io_EOF
  end.

Definition with_data (s : Stream) (d : string) : Stream :=
  {| s_data := d; s_end := s_end s; s_closed := s_closed s;
     s_nilsrc := s_nilsrc s; s_chain := s_chain s |}.

(** The stream behind [r], ready for a [Read]: panics where the [Read] would
    reach a nil reader. *)
Definition reading (r : Reader) : M (nat * Stream) :=
  '(h, s) ← deref r;
  if s_nilsrc s then panic nil_dereference else mret (h, s).

(** The stream after the reads left [d] unread; a closed stream gave nothing
    and stays as it is. *)
Definition advance (s : Stream) (d : string) : Stream :=
  if s_closed s then s else with_data s d.

(** ** Package [io] *)

Module io.

(** [io.ReadAll(r)], and [io.Copy(buf, r)] into a fresh buffer: all the
    bytes up to the end of the stream.  [io.EOF] ends the reading without
    being an error; any other Read error is returned with what was read. *)
Definition ReadAll (r : Reader) : M (string * option error) :=
  '(h, s) ← reading r;
  let '(d, e) := readable s in
  _ ← set_stream h (advance s "");
  mret (d, if is_EOF (Some (end_error e)) then None else Some (end_error e)).

Definition Copy (r : Reader) : M (string * option error) := ReadAll r.

(** [c.Close()].  A [ChainedCloser] closes the reader it was given; this
    goes down the chain of wrappers.  A wrapper is made after the stream it
    wraps, so the chain is shorter than the number of streams and the fuel
    lasts; the branch without fuel stands for a chain that never ends. *)
Fixpoint close_chain (fuel : nat) (c : Reader) : M (option error) :=
  '(h, s) ← deref c;
  let closed := {| s_data := s_data s; s_end := s_end s; s_closed := true;
                   s_nilsrc := s_nilsrc s; s_chain := s_chain s |} in
  match s_chain s with
  | Own => _ ← set_stream h closed; mret None
  | Over inner =>
      match fuel with
      | 0 => panic "Close: the chain of wrappers does not end"
      | S fuel' =>
          err ← close_chain fuel' inner;
          _ ← set_stream h closed;
          mret err
      end
  end.

Definition Close (c : Reader) : M (option error) :=
  fun σ => close_chain (length (streams σ)) c σ.

End io.

(** ** Package [bufio]

    [bufio.NewReader(r)] is modelled by [r] itself: the buffer only changes
    how many bytes each Read of the underlying stream fetches, and everything
    read after [csvHeader] goes through the buffered reader.  [csv.NewReader]
    calls [bufio.NewReader] on its argument, which returns a [*bufio.Reader]
    of the default size unchanged, so the CSV reader and [csvHeader] share one
    buffered reader and one position. *)

Module bufio.

(** [br.Peek(n)]: the next [n] bytes without advancing; when fewer are
    left, those and the error that ended the stream. *)
Definition Peek (br : Reader) (n : nat) : M (string * option error) :=
  '(_, s) ← reading br;
  let '(d, e) := readable s in
  if n <=? String.length d
  then mret (bytes.take n d, None)
  else mret (d, Some (end_error e)).

(** [br.Discard(n)] *)
Definition Discard (br : Reader) (n : nat) : M unit :=
  '(h, s) ← reading br;
  let '(d, _) := readable s in
  set_stream h (advance s (bytes.drop n d)).

End bufio.

(** ** Package [encoding/csv]

    [Reader.Read] with the settings of [csvHeader]: [Comma = ','], no
    comment character, [LazyQuotes = true], [TrimLeadingSpace = false],
    [FieldsPerRecord = 0], on the first call.  With [LazyQuotes] no
    [ParseError] is ever made, so the error of a record is the Read error
    met while its lines were read. *)

Module csv.

(** What is left of the input: the unread bytes and the end condition. *)
Definition src : Type := (string * option error)%type.

(** [lengthNL(b)] *)
Definition lengthNL (b : string) : nat :=
  if bytes.ends_with LF b then 1 else 0.

(** The end of [readLine]: a final "\r\n" becomes "\n". *)
Definition crlf_to_lf (line : string) : string :=
  let n := String.length line in
  if (2 <=? n) && bool_decide (String.get (n - 2) line = Some CR)
               && bool_decide (String.get (n - 1) line = Some LF)
  then bytes.take (n - 2) line +:+ String LF ""
  else line.

(** [r.readLine()]: [ReadSlice('\n')], repeated while the buffer is full;
    a last line without newline is not an error, and loses a trailing
    carriage return. *)
Definition readLine (s : src) : string * option error * src :=
  let '(d, e) := s in
  let '(line, err, rest) :=
    match bytes.IndexByte d LF with
    | Some i => (bytes.take (S i) d, None, bytes.drop (S i) d)
    | None => (d, Some (end_error e), ""%string)
    end in
  let readSize := String.length line in
  let '(line, err) :=
    if (0 <? readSize) && is_EOF err
    then (if bytes.ends_with CR line then bytes.take (readSize - 1) line else line,
          None)
    else (line, err) in
  (crlf_to_lf line, err, (rest, e)).

(** The first loop of [readRecord]: empty lines are skipped.  Every
    skipped line took at least one byte from the input. *)
Fixpoint firstLine (fuel : nat) (s : src) : option (string * option error * src) :=
  match fuel with
  | 0 => None
  | S fuel' =>
      let '(line, errRead, s') := readLine s in
      match errRead with
      | None =>
          if String.length line =? lengthNL line
          then firstLine fuel' s'
          else Some (line, errRead, s')
      | Some _ => Some (line, errRead, s')
      end
  end.

(** The loop [parseField] of [readRecord], and the inner loop of a quoted
    field.  [fields] are the fields completed so far ([fieldIndexes]),
    [cur] the bytes of the field being read (the end of [recordBuffer]).
    - [nextRune(line)] is the quote exactly when the first byte is the
      quote, an ASCII character; the same for the comma.
    - a quoted field that meets a Read error is dropped: the loop is left
      before the field is recorded. *)
Fixpoint parseField (fuel : nat) (line : string) (errRead : option error)
    (s : src) (fields : list string) {struct fuel}
    : option (list string * option error * src) :=
  match fuel with
  | 0 => None
  | S fuel' =>
      if negb (bytes.starts_with QUOTE line) then
        (* Non-quoted string field *)
        match bytes.IndexByte line COMMA with
        | Some i =>
            parseField fuel' (bytes.drop (i + 1) line) errRead s
                       (fields ++ [bytes.take i line])
        | None =>
            Some (fields ++ [bytes.take (String.length line - lengthNL line) line],
                  errRead, s)
        end
      else
        (* Quoted string field *)
        quotedField fuel' (bytes.drop 1 line) errRead s ""%string fields
  end
with quotedField (fuel : nat) (line : string) (errRead : option error)
    (s : src) (cur : string) (fields : list string) {struct fuel}
    : option (list string * option error * src) :=
  match fuel with
  | 0 => None
  | S fuel' =>
      match bytes.IndexByte line QUOTE with
      | Some i =>
          (* Hit next quote. *)
          let cur := cur +:+ bytes.take i line in
          let line := bytes.drop (i + 1) line in
          if bytes.starts_with QUOTE line then
            (* a doubled quote: append one quote *)
            quotedField fuel' (bytes.drop 1 line) errRead s
                        (cur +:+ String QUOTE "") fields
          else if bytes.starts_with COMMA line then
            (* quote and comma: end of field *)
            parseField fuel' (bytes.drop 1 line) errRead s (fields ++ [cur])
          else if lengthNL line =? String.length line then
            (* quote and newline: end of line *)
            Some (fields ++ [cur], errRead, s)
          else
            (* LazyQuotes: a bare quote *)
            quotedField fuel' line errRead s (cur +:+ String QUOTE "") fields
      | None =>
          if 0 <? String.length line then
            (* Hit end of line (copy all data so far). *)
            match errRead with
            | Some _ => Some (fields, errRead, s)
            | None =>
                let '(line', errRead', s') := readLine s in
                quotedField fuel' line'
                            (if is_EOF errRead' then None else errRead')
                            s' (cur +:+ line) fields
            end
          else
            (* Abrupt end of file (EOF or error). *)
            Some (fields ++ [cur], errRead, s)
      end
  end.

(** [r.readRecord(nil)]: the record, the error and what is left.  The
    fuel given to the loops always suffices ([readRecord_runs]), so the
    last branch of each [match] is never taken. *)
Definition readRecord_opt (s : src) : option (list string * option error * src) :=
  match firstLine (S (String.length (fst s))) s with
  | None => None
  | Some (line, errRead, s') =>
      if is_EOF errRead then Some ([], errRead, s')
      else parseField (S (String.length line + String.length (fst s')))
                      line errRead s' []
  end.

Definition readRecord (s : src) : list string * option error * src :=
  match readRecord_opt s with
  | Some res => res
  | None => ([], Some io_EOF, s)
  end.

(** [rr.Read()] on the reader [csv.NewReader(br)]. *)
Definition Read (br : Reader) : M (list string * option error) :=
  '(h, s) ← reading br;
  let '(record, err, (d, _)) := readRecord (readable s) in
  _ ← set_stream h (advance s d);
  mret (record, err).

End csv.

(** ** Package [unicode/utf8] *)

Module utf8.

Definition RuneError : Z := 0xFFFD%Z.

Definition byte_val (c : ascii) : Z := Z.of_N (N_of_ascii c).

Definition in_range (lo hi : Z) (c : ascii) : bool :=
  ((lo <=? byte_val c) && (byte_val c <=? hi))%Z.

(** The table [first] with [acceptRanges]: for a lead byte of a sequence
    of several bytes, the length of the sequence and the range of its
    second byte; [None] for the bytes that cannot start one. *)
Definition lead (s0 : Z) : option (nat * Z * Z) :=
  (if s0 <? 0xC2 then None
   else if s0 <=? 0xDF then Some (2%nat, 0x80, 0xBF)
   else if s0 =? 0xE0 then Some (3%nat, 0xA0, 0xBF)
   else if s0 <=? 0xEC then Some (3%nat, 0x80, 0xBF)
   else if s0 =? 0xED then Some (3%nat, 0x80, 0x9F)
   else if s0 <=? 0xEF then Some (3%nat, 0x80, 0xBF)
   else if s0 =? 0xF0 then Some (4%nat, 0x90, 0xBF)
   else if s0 <=? 0xF3 then Some (4%nat, 0x80, 0xBF)
   else if s0 =? 0xF4 then Some (4%nat, 0x80, 0x8F)
   else None)%Z.

Definition low6 (c : ascii) : Z := Z.land (byte_val c) 0x3F.

(** [s[i]], read only below [len(s)]. *)
Definition at_ (s : string) (i : nat) : ascii :=
  match String.get i s with
  | Some c => c
  | None => Ascii.zero
  end.

(** [utf8.DecodeRuneInString(s)]: the rune and its width in bytes; an
    invalid or short sequence is [RuneError] of width 1. *)
Definition DecodeRuneInString (s : string) : Z * nat :=
  match s with
  | EmptyString => (RuneError, 0)
  | String c0 _ =>
      let s0 := byte_val c0 in
      if (s0 <? 0x80)%Z then (s0, 1)
      else
        match lead s0 with
        | None => (RuneError, 1)
        | Some (sz, lo, hi) =>
            if String.length s <? sz then (RuneError, 1)
            else
              let s1 := at_ s 1 in
              if negb (in_range lo hi s1) then (RuneError, 1)
              else if sz <=? 2 then
                (Z.lor (Z.shiftl (Z.land s0 0x1F) 6) (low6 s1), 2)
              else
                let s2 := at_ s 2 in
                if negb (in_range 0x80 0xBF s2) then (RuneError, 1)
                else if sz <=? 3 then
                  (Z.lor (Z.lor (Z.shiftl (Z.land s0 0x0F) 12)
                                (Z.shiftl (low6 s1) 6)) (low6 s2), 3)
                else
                  let s3 := at_ s 3 in
                  if negb (in_range 0x80 0xBF s3) then (RuneError, 1)
                  else
                    (Z.lor (Z.lor (Z.lor (Z.shiftl (Z.land s0 0x07) 18)
                                         (Z.shiftl (low6 s1) 12))
                                  (Z.shiftl (low6 s2) 6)) (low6 s3), 4)
        end
  end.

End utf8.

(** ** Package [regexp]

    A compiled pattern is used through two methods.  [ExpandString] appends
    the expansion of a template to [dst]; the text it appends is the field
    [expansion] (template, source text, one match). *)

Record Regexp : Type := {
  FindAllStringSubmatchIndex : string -> list (list Z);   (* n = -1: all matches *)
  expansion : string -> string -> list Z -> string
}.

Definition ExpandString (re : Regexp) (dst template src : string) (m : list Z) : string :=
  dst +:+ expansion re template src m.

(** The general categories that the pattern of [load] names. *)
Inductive Category : Type := cat_L | cat_N | cat_Pc | cat_Pd | cat_M.

(** The ASCII part of the tables of package [unicode]. *)
Definition ascii_category (c : Category) (r : Z) : bool :=
  match c with
  | cat_L => ((65 <=? r) && (r <=? 90) || (97 <=? r) && (r <=? 122))%Z
  | cat_N => ((48 <=? r) && (r <=? 57))%Z
  | cat_Pc => (r =? 95)%Z
  | cat_Pd => (r =? 45)%Z
  | cat_M => false
  end.

(** One item of a bracket expression. *)
Inductive ClassItem : Type :=
| InCategory (c : Category)      (* \p{..} *)
| Literal (ch : ascii).

(** ** The data model of [main.go] *)

Record Extraction : Type := {
  e_Method : string;
  e_Url : string;
  e_Body : gmap string string
}.

Record Tweak : Type := {
  t_Call : string;
  t_Args : gmap string string
}.

Record Loading : Type := {
  l_ProjectID : string;
  l_DatasetID : string;
  l_TableID : string
}.

Record PreExtraction : Type := {
  p_Method : string;
  p_Url : string;
  p_Body : gmap string string;
  p_Pattern : string
}.

(** The anonymous struct [d] that [handler] decodes. *)
Record Config : Type := {
  d_PreExtraction : PreExtraction;
  d_Extraction : Extraction;
  d_Tweaks : list Tweak;
  d_Loading : Loading
}.

(** One entry of a zip archive: [f.Open()] fails, or gives a stream of the
    entry's bytes with its end condition (a checksum error shows there). *)
Record zipFile : Type := {
  zf_Name : string;
  zf_Open : error + (string * option error)
}.

(** ** The collaborators *)

Record Env : Type := {
  (* net/http: the error of http.NewRequest(method, url, _), if any *)
  http_NewRequest : string -> string -> option error;
  (* http.DefaultClient.Do: a transport error, or the status code and the
     body of the response *)
  http_Do : string -> string -> gmap string string ->
            error + (Z * string * option error);
  (* charset.Lookup(label): the decoder to UTF-8 *)
  charset_Lookup : string -> option (string -> string);
  (* zip.NewReader on the bytes of the archive: its entries in order *)
  zip_NewReader : string -> error + list zipFile;
  (* regexp.Compile *)
  regexp_Compile : string -> error + Regexp;
  (* json.NewDecoder(r.Body).Decode(&d) *)
  json_Decode : string -> error + Config;
  (* the tables of package unicode for the runes from 0x80 on *)
  unicode_table : Category -> Z -> bool;
  (* cloud.google.com/go/bigquery *)
  bigquery_NewClient : string -> option error;
  bigquery_Run : string -> string -> list string -> string * option error -> option error;
  bigquery_Wait : string -> string -> option error;
  bigquery_Status : string -> string -> option error
}.

(** ** The functions of [main.go] *)

Section Program.

Variable env : Env.

(** [unicode.Is] on the tables of the general categories. *)
Definition in_category (c : Category) (r : Z) : bool :=
  if (r <? 0x80)%Z then ascii_category c r else unicode_table env c r.

Definition item_matches (r : Z) (it : ClassItem) : bool :=
  match it with
  | InCategory c => in_category c r
  | Literal ch => (r =? utf8.byte_val ch)%Z
  end.

(** [re.ReplaceAllString(src, repl)] for a pattern that is one bracket
    expression, so that every match is one rune, and a replacement without
    dollar sign: the runes of [src] are decoded one after the other, a rune
    the pattern matches gives [repl], any other its own bytes. *)
Fixpoint replace_runes (fuel : nat) (matches : Z -> bool) (src repl : string) : string :=
  match fuel with
  | 0 => src
  | S fuel' =>
      match src with
      | EmptyString => EmptyString
      | String _ _ =>
          let '(r, w) := utf8.DecodeRuneInString src in
          (if matches r then repl else bytes.take w src)
            +:+ replace_runes fuel' matches (bytes.drop w src) repl
      end
  end.

Definition ReplaceAllString (matches : Z -> bool) (src repl : string) : string :=
  replace_runes (String.length src) matches src repl.

(** [request] *)
Definition request (method url : string) (body : gmap string string)
    : M (Reader * option error) :=
  (* v.Set(key, value) for every entry of body *)
  let v := body in
  match http_NewRequest env method url with
  | Some err => mret (None, Some err)
  | None =>
      let contentType := negb (size v =? 0) in
      _ ← emit (EvHTTP method url v contentType);
      match http_Do env method url v with
      | inl err => mret (None, Some err)
      | inr (StatusCode, content, ending) =>
          Body ← alloc {| s_data := content; s_end := ending; s_closed := false;
                          s_nilsrc := false; s_chain := Own |};
          if (299 <? StatusCode)%Z
          then mret (None, Some (ErrStatus StatusCode body))
          else mret (Some Body, None)
      end
  end.

(** [convert]: [ChainedCloser{nr, r}], where [nr] decodes what [r]
    delivers.  The decoded bytes are written down when the wrapper is
    made; the wrapper closes [r]. *)
Definition convert (label : string) (r : Reader) : M (Reader * option error) :=
  match charset_Lookup env label with
  | None => mret (None, Some (ErrUnsupportedCharset label))
  | Some decode =>
      match r with
      | None =>
          nr ← alloc {| s_data := ""; s_end := None; s_closed := false;
                        s_nilsrc := true; s_chain := Over None |};
          mret (Some nr, None)
      | Some _ =>
          '(_, s) ← deref r;
          nr ← alloc {| s_data := decode (s_data s); s_end := s_end s;
                        s_closed := s_closed s; s_nilsrc := s_nilsrc s;
                        s_chain := Over r |};
          mret (Some nr, None)
      end
  end.

(** [unzip] *)
Definition unzip (reader : Reader) : M (Reader * option error) :=
  '(b, err) ← io.Copy reader;
  match err with
  | Some e => mret (None, Some e)
  | None =>
      _ ← io.Close reader;
      match zip_NewReader env b with
      | inl e => mret (None, Some e)
      | inr File =>
          match File with
          | [] => mret (None, None)
          | f :: _ =>
              (* r.File[0].Open() *)
              match zf_Open f with
              | inl e => mret (None, Some e)
              | inr (content, ending) =>
                  rc ← alloc {| s_data := content; s_end := ending;
                                s_closed := false; s_nilsrc := false;
                                s_chain := Own |};
                  mret (Some rc, None)
              end
          end
      end
  end.

Definition is_BOM (bom : string) : bool :=
  bool_decide (String.get 0 bom = Some "239"%char)
  && bool_decide (String.get 1 bom = Some "187"%char)
  && bool_decide (String.get 2 bom = Some "191"%char).

(** [csvHeader] *)
Definition csvHeader (r : Reader) : M (list string * Reader * option error) :=
  let br := r in
  '(bom, err) ← bufio.Peek br 3;
  match err with
  | Some e => mret ([], None, Some e)
  | None =>
      (* UTF-8 with BOM *)
      _ ← (if is_BOM bom then bufio.Discard br 3 else mret tt);
      '(header, err) ← csv.Read br;
      match err with
      | Some e => mret ([], None, Some e)
      | None => mret (header, br, None)
      end
  end.

(** The bracket expression of [invalidCharacters], and the pattern: one
    rune that is none of its items. *)
Definition allowed_items : list ClassItem :=
  [InCategory cat_L; InCategory cat_N; InCategory cat_Pc; InCategory cat_Pd;
   InCategory cat_M; Literal "&"; Literal "%"; Literal "="; Literal "+";
   Literal ":"; Literal "'"; Literal "<"; Literal ">"; Literal "#"; Literal "|"].

Definition invalidCharacters (r : Z) : bool :=
  negb (existsb (item_matches r) allowed_items).

(** [load].  The load job reads the source [rs], that is [br], to its end. *)
Definition load (projectID datasetID tableID : string) (r : Reader) : M (option error) :=
  '(header, br, err) ← csvHeader r;
  defer (io.Close r)
    match err with
    | Some e => mret (Some e)
    | None =>
        _ ← emit (EvBQClient projectID);
        match bigquery_NewClient env projectID with
        | Some e => mret (Some e)
        | None =>
            let schema :=
              map (fun v => ReplaceAllString invalidCharacters v "_") header in
            rows ← io.ReadAll br;
            _ ← emit (EvBQRun datasetID tableID schema (fst rows));
            match bigquery_Run env datasetID tableID schema rows with
            | Some e => mret (Some e)
            | None =>
                _ ← emit EvBQWait;
                match bigquery_Wait env datasetID tableID with
                | Some e => mret (Some e)
                | None => mret (bigquery_Status env datasetID tableID)
                end
            end
        end
    end.

(** [Tweak.tweak] *)
Definition tweak (t : Tweak) (reader : Reader) : M (Reader * option error) :=
  if bool_decide (t_Call t = "unzip") then
    '(nextReader, err) ← unzip reader;
    match err with
    | Some e => mret (None, Some e)
    | None => mret (nextReader, None)
    end
  else if bool_decide (t_Call t = "convert") then
    '(nextReader, err) ← convert (default "" (t_Args t !! "charset")) reader;
    match err with
    | Some e => mret (None, Some e)
    | None => mret (nextReader, None)
    end
  else mret (None, Some (ErrUnsupportedCall (t_Call t))).

(** [formatMap] *)
Definition formatMap (templates : gmap string string) (pattern : Regexp)
    (content : string) : gmap string string :=
  let matches := FindAllStringSubmatchIndex pattern content in
  map_fold
    (fun key template m =>
       let result :=
         foldl (fun result submatches =>
                  ExpandString pattern result template content submatches)
               ""%string matches in
       <[key := result]> m)
    ∅ templates.

(** [regexp.MustCompile] *)
Definition MustCompile (str : string) : M Regexp :=
  match regexp_Compile env str with
  | inr re => mret re
  | inl _ => panic ("regexp: Compile: " +:+ str)
  end.

(** [PreExtraction.preExtract] *)
Definition preExtract (p : PreExtraction) (e : Extraction) : M (Extraction * option error) :=
  if bool_decide (p_Method p = ""%string) && bool_decide (p_Url p = ""%string)
  then mret (e, None)
  else
    '(reader, err) ← request (p_Method p) (p_Url p) (p_Body p);
    match err with
    | Some er => mret (e, Some er)
    | None =>
        defer (io.Close reader)
          ('(b, err) ← io.ReadAll reader;
           match err with
           | Some _ => log_Fatal
           | None =>
               let content := b in
               pattern ← MustCompile (p_Pattern p);
               let body := formatMap (e_Body e) pattern content in
               mret ({| e_Method := e_Method e; e_Url := e_Url e; e_Body := body |},
                     None)
           end)
    end.

(** The answer of [handler] to every failure: status 500 and the JSON
    text with the one member [error]. *)
Definition error_json : string :=
  "{" +:+ String QUOTE "error" +:+ String QUOTE ": "
      +:+ String QUOTE "Internal Server Error" +:+ String QUOTE "}".

Definition internal_server_error : M unit :=
  _ ← emit (EvWriteHeader 500);
  emit (EvWrite error_json).

(** The loop of [handler] over [d.Tweaks]: the first error ends it. *)
Fixpoint tweak_all (ts : list Tweak) (reader : Reader) : M (Reader * option error) :=
  match ts with
  | [] => mret (reader, None)
  | t :: ts' =>
      '(reader', err) ← tweak t reader;
      match err with
      | Some e => mret (reader', Some e)
      | None => tweak_all ts' reader'
      end
  end.

(** [handler], on the body of the incoming request. *)
Definition handler (requestBody : string) : M unit :=
  _ ← emit (EvSetHeader "Content-Type" "application/json");
  match json_Decode env requestBody with
  | inl _ => internal_server_error
  | inr d =>
      '(e, err) ← preExtract (d_PreExtraction d) (d_Extraction d);
      match err with
      | Some _ => internal_server_error
      | None =>
          '(reader, err) ← request (e_Method e) (e_Url e) (e_Body e);
          match err with
          | Some _ => internal_server_error
          | None =>
              '(reader, err) ← tweak_all (d_Tweaks d) reader;
              match err with
              | Some _ => internal_server_error
              | None =>
                  err ← load (l_ProjectID (d_Loading d)) (l_DatasetID (d_Loading d))
                             (l_TableID (d_Loading d)) reader;
                  match err with
                  | Some _ => internal_server_error
                  | None => _ ← emit (EvWriteHeader 200); emit (EvWrite "{}")
                  end
              end
          end
      end
  end.

End Program.

(** ** Sample streams and collaborators, for the concrete cases *)

Definition plain_stream (d : string) : Stream :=
  {| s_data := d; s_end := None; s_closed := false; s_nilsrc := false;
     s_chain := Own |}.

Definition one_stream (d : string) : State :=
  {| streams := [plain_stream d]; trace := [] |}.

Definition no_streams : State := {| streams := []; trace := [] |}.

(** Collaborators that answer every request with the given status code and
    body, find the given entries in every archive, decode every JSON text to
    the given configuration (or reject it), know no charset, reject every
    pattern, and accept every load. *)
Definition full_env (status : Z) (content : string) (File : list zipFile)
    (cfg : option Config) : Env :=
  {| http_NewRequest := fun _ _ => None;
     http_Do := fun _ _ _ => inr (status, content, None);
     charset_Lookup := fun _ => None;
     zip_NewReader := fun _ => inr File;
     regexp_Compile := fun _ => inl (ErrExternal "regexp" "error parsing regexp");
     json_Decode := fun _ =>
       match cfg with
       | Some d => inr d
       | None => inl (ErrExternal "json" "unexpected end of JSON input")
       end;
     unicode_table := fun _ _ => false;
     bigquery_NewClient := fun _ => None;
     bigquery_Run := fun _ _ _ _ => None;
     bigquery_Wait := fun _ _ => None;
     bigquery_Status := fun _ _ => None |}.

Definition sample_env (status : Z) (content : string) : Env :=
  full_env status content [] None.

Definition zip_env (File : list zipFile) : Env := full_env 200 "" File None.

Definition entry (name content : string) : zipFile :=
  {| zf_Name := name; zf_Open := inr (content, None) |}.

(** A run without pre-extraction that fetches one URL, applies the tweaks
    and loads the table [p.d.t]. *)
Definition sample_config (ts : list Tweak) : Config :=
  {| d_PreExtraction := {| p_Method := ""; p_Url := ""; p_Body := ∅; p_Pattern := "" |};
     d_Extraction := {| e_Method := "GET"; e_Url := "http://example.com/data.zip";
                        e_Body := ∅ |};
     d_Tweaks := ts;
     d_Loading := {| l_ProjectID := "p"; l_DatasetID := "d"; l_TableID := "t" |} |}.

(** A stand-in for the compiled pattern of one literal byte: its matches
    are the occurrences of the byte, from left to right; the template [$0]
    expands to the match, and any other template is taken as literal text,
    which is what [Expand] does with a template without dollar sign. *)
Fixpoint byte_matches (c : ascii) (pos : Z) (src : string) : list (list Z) :=
  match src with
  | EmptyString => []
  | String x t =>
      (if Ascii.eqb x c then [[pos; (pos + 1)%Z]] else [])
        ++ byte_matches c (pos + 1)%Z t
  end.

Definition whole_match (src : string) (m : list Z) : string :=
  match m with
  | a :: b :: _ => bytes.take (Z.to_nat b - Z.to_nat a) (bytes.drop (Z.to_nat a) src)
  | _ => ""%string
  end.

Definition byte_pattern (c : ascii) : Regexp :=
  {| FindAllStringSubmatchIndex := byte_matches c 0%Z;
     expansion := fun template src m =>
       if bool_decide (template = "$0"%string) then whole_match src m else template |}.

(** ** Names for the statements *)

(** The runes of a string with the bytes of each, decoded one after the
    other as [range] over a string does. *)
Fixpoint runes_from (fuel : nat) (s : string) : list (Z * string) :=
  match fuel with
  | 0 => []
  | S fuel' =>
      match s with
      | EmptyString => []
      | String _ _ =>
          let '(r, w) := utf8.DecodeRuneInString s in
          (r, bytes.take w s) :: runes_from fuel' (bytes.drop w s)
      end
  end.

Definition runes (s : string) : list (Z * string) := runes_from (String.length s) s.

(** The runes that the pattern of [load] lets through: letters, numbers,
    connector and dash punctuation, marks, and ten literal characters. *)
Definition allowed_rune (env : Env) (r : Z) : Prop :=
  in_category env cat_L r = true \/ in_category env cat_N r = true \/
  in_category env cat_Pc r = true \/ in_category env cat_Pd r = true \/
  in_category env cat_M r = true \/
  In r (map utf8.byte_val
          ["&"%char; "%"%char; "="%char; "+"%char; ":"%char; "'"%char;
           "<"%char; ">"%char; "#"%char; "|"%char]).

(** A header line field that needs no quotes: no comma, no newline, no
    quote at its start. *)
Definition plain_field (f : string) : Prop :=
  bytes.mem COMMA f = false /\ bytes.mem LF f = false /\
  bytes.starts_with QUOTE f = false.

(** A cell of a CSV line as it is written: as it is, or between quotes
    with every quote of the value doubled. *)
Fixpoint escape (f : string) : string :=
  match f with
  | EmptyString => EmptyString
  | String c t =>
      if Ascii.eqb c QUOTE then String QUOTE (String QUOTE (escape t))
      else String c (escape t)
  end.

Inductive cell : Type :=
| Plain (f : string)
| Quoted (f : string).

Definition cell_text (c : cell) : string :=
  match c with
  | Plain f => f
  | Quoted f => String QUOTE (escape f +:+ String QUOTE "")
  end.

Definition cell_value (c : cell) : string :=
  match c with
  | Plain f | Quoted f => f
  end.

(** The cells of a header that is one line: a value written as it is needs
    no quotes, a value between quotes holds no newline. *)
Definition cell_ok (c : cell) : Prop :=
  match c with
  | Plain f => plain_field f
  | Quoted f => bytes.mem LF f = false
  end.

(** The two ways a line ends: a newline, after a line that does not end
    with a carriage return, or a carriage return and a newline. *)
Definition line_end (line eol : string) : Prop :=
  (eol = String LF "" /\ bytes.ends_with CR line = false) \/
  eol = String CR (String LF "").

(** The loops of [readRecord] end with [r], given fuel enough. *)
Definition parse_to (line : string) (errRead : option error) (s : csv.src)
    (fields : list string) (r : list string * option error * csv.src) : Prop :=
  exists fuel, csv.parseField fuel line errRead s fields = Some r.

Definition quoted_to (line : string) (errRead : option error) (s : csv.src)
    (cur : string) (fields : list string)
    (r : list string * option error * csv.src) : Prop :=
  exists fuel, csv.quotedField fuel line errRead s cur fields = Some r.

Definition BOM : string := String "239" (String "187" (String "191" "")).

(** The state with stream [h] replaced, and a stream marked closed. *)
Definition upd (h : nat) (s : Stream) (σ : State) : State :=
  {| streams := <[h := s]> (streams σ); trace := trace σ |}.

Definition close_mark (s : Stream) : Stream :=
  {| s_data := s_data s; s_end := s_end s; s_closed := true;
     s_nilsrc := s_nilsrc s; s_chain := s_chain s |}.

(** [handler] with any function in the place of [load]. *)
Definition handler_with (env : Env)
    (ld : string -> string -> string -> Reader -> M (option error))
    (requestBody : string) : M unit :=
  _ ← emit (EvSetHeader "Content-Type" "application/json");
  match json_Decode env requestBody with
  | inl _ => internal_server_error
  | inr d =>
      '(e, err) ← preExtract env (d_PreExtraction d) (d_Extraction d);
      match err with
      | Some _ => internal_server_error
      | None =>
          '(reader, err) ← request env (e_Method e) (e_Url e) (e_Body e);
          match err with
          | Some _ => internal_server_error
          | None =>
              '(reader, err) ← tweak_all env (d_Tweaks d) reader;
              match err with
              | Some _ => internal_server_error
              | None =>
                  err ← ld (l_ProjectID (d_Loading d)) (l_DatasetID (d_Loading d))
                           (l_TableID (d_Loading d)) reader;
                  match err with
                  | Some _ => internal_server_error
                  | None => _ ← emit (EvWriteHeader 200); emit (EvWrite "{}")
                  end
              end
          end
      end
  end.

(** The calls to BigQuery in a trace: what [load] did to the outside. *)
Definition is_load_event (ev : Event) : bool :=
  match ev with
  | EvBQClient _ | EvBQRun _ _ _ _ | EvBQWait => true
  | _ => false
  end.

Definition load_events (σ : State) : list Event :=
  List.filter is_load_event (trace σ).

(** A computation that makes no call to BigQuery. *)
Definition quiet {A} (m : M A) : Prop :=
  forall σ, load_events (snd (m σ)) = load_events σ.

(** A tweak the switch of [Tweak.tweak] does not know. *)
Definition unknown_call (t : Tweak) : Prop :=
  t_Call t <> "unzip"%string /\ t_Call t <> "convert"%string.

(** ** Names for the further statements *)

(** The state with more events at the end of its trace. *)
Definition add_events (evs : list Event) (σ : State) : State :=
  {| streams := streams σ; trace := trace σ ++ evs |}.

(** A computation that does nothing to the outside: the trace stays as it is. *)
Definition keeps_trace {A} (m : M A) : Prop :=
  forall σ, trace (snd (m σ)) = trace σ.

(** A computation that only adds events, all of them of the kind [P]. *)
Definition emits {A} (P : Event -> Prop) (m : M A) : Prop :=
  forall σ, exists evs, trace (snd (m σ)) = trace σ ++ evs /\ Forall P evs.

(** The events that write the HTTP response. *)
Definition is_response_event (ev : Event) : bool :=
  match ev with
  | EvWriteHeader _ | EvWrite _ => true
  | _ => false
  end.

(** An event that is not part of the HTTP response. *)
Definition backstage (ev : Event) : Prop := is_response_event ev = false.

(** The [ChainedCloser] that [convert] makes over the stream [h]. *)
Definition wrapper (decode : string -> string) (h : nat) (s : Stream) : Stream :=
  {| s_data := decode (s_data s); s_end := s_end s; s_closed := s_closed s;
     s_nilsrc := s_nilsrc s; s_chain := Over (Some h) |}.

(** The [ChainedCloser] that [convert] makes over the nil reader. *)
Definition nil_wrapper : Stream :=
  {| s_data := ""; s_end := None; s_closed := false; s_nilsrc := true;
     s_chain := Over None |}.

(** The inner loop of [formatMap]: the template expanded against every
    match, each expansion appended to the result so far. *)
Definition expand_all (pattern : Regexp) (content template : string) : string :=
  foldl (fun result submatches =>
           ExpandString pattern result template content submatches)
        ""%string (FindAllStringSubmatchIndex pattern content).

(** The outer loop of [formatMap] when [range] visits the entries of the
    map in the order of [keys]. *)
Definition formatMap_over (keys : list (string * string)) (pattern : Regexp)
    (content : string) : gmap string string :=
  foldl (fun m kt => <[kt.1 := expand_all pattern content kt.2]> m) ∅ keys.

(** [n] empty lines. *)
Fixpoint blank_lines (n : nat) : string :=
  match n with
  | 0 => ""%string
  | S k => String LF (blank_lines k)
  end.

(** The name [load] gives to the column of a header name. *)
Definition sanitize (env : Env) (v : string) : string :=
  ReplaceAllString (invalidCharacters env) v "_".

(** Membership in the set of runes that a column name keeps, as a test. *)
Definition in_allowed_set (env : Env) (r : Z) : bool :=
  in_category env cat_L r || in_category env cat_N r || in_category env cat_Pc r
  || in_category env cat_Pd r || in_category env cat_M r
  || existsb (Z.eqb r)
       (map utf8.byte_val
          ["&"%char; "%"%char; "="%char; "+"%char; ":"%char; "'"%char;
           "<"%char; ">"%char; "#"%char; "|"%char]).

(** The column name of a header name, rune by rune: a rune in the set keeps
    its bytes, any other rune becomes an underscore. *)
Definition column_name (env : Env) (name : string) : string :=
  bytes.concat
    (map (fun '(r, bs) => if in_allowed_set env r then bs else "_"%string)
         (runes name)).

(** Sample collaborators with more to choose: what [zip.NewReader] answers,
    the compiled pattern and the charset decoder, if any. *)
Definition lab_env (status : Z) (content : string) (zip : error + list zipFile)
    (cfg : option Config) (re : option Regexp) (dec : option (string -> string)) : Env :=
  {| http_NewRequest := fun _ _ => None;
     http_Do := fun _ _ _ => inr (status, content, None);
     charset_Lookup := fun _ => dec;
     zip_NewReader := fun _ => zip;
     regexp_Compile := fun _ =>
       match re with
       | Some r => inr r
       | None => inl (ErrExternal "regexp" "error parsing regexp")
       end;
     json_Decode := fun _ =>
       match cfg with
       | Some d => inr d
       | None => inl (ErrExternal "json" "unexpected end of JSON input")
       end;
     unicode_table := fun _ _ => false;
     bigquery_NewClient := fun _ => None;
     bigquery_Run := fun _ _ _ _ => None;
     bigquery_Wait := fun _ _ => None;
     bigquery_Status := fun _ _ => None |}.

(** A stream whose reads end with an error of the network. *)
Definition broken_stream (d : string) : Stream :=
  {| s_data := d; s_end := Some (ErrExternal "net" "connection reset by peer");
     s_closed := false; s_nilsrc := false; s_chain := Own |}.

(** * Properties *)

Ltac unfold_M :=
  unfold mbind, M_bind, bind, mret, M_ret, ret, panic, log_Fatal in *.

(** ** Byte strings *)

Lemma append_cons (x : ascii) (a b : string) :
  String x a +:+ b = String x (a +:+ b).
Proof. reflexivity. Qed.

Lemma append_nil (b : string) : "" +:+ b = b.
Proof. reflexivity. Qed.

Ltac string_ind a :=
  induction a as [|? a ?IH];
  rewrite ?append_cons, ?append_nil; simpl; rewrite ?append_cons, ?append_nil.

Lemma append_assoc (a b c : string) : (a +:+ b) +:+ c = a +:+ (b +:+ c).
Proof. string_ind a; [reflexivity | now rewrite IH]. Qed.

Lemma append_empty_r (a : string) : a +:+ "" = a.
Proof. string_ind a; [reflexivity | now rewrite IH]. Qed.

Lemma length_append (a b : string) :
  String.length (a +:+ b) = String.length a + String.length b.
Proof. string_ind a; simpl; [reflexivity | now rewrite IH]. Qed.

Lemma take_append (a b : string) : bytes.take (String.length a) (a +:+ b) = a.
Proof. string_ind a; simpl; [now destruct b | now rewrite IH]. Qed.

Lemma drop_append (a b : string) : bytes.drop (String.length a) (a +:+ b) = b.
Proof. string_ind a; simpl; [now destruct b | exact IH]. Qed.

Lemma take_all (a : string) : bytes.take (String.length a) a = a.
Proof. string_ind a; simpl; [reflexivity | now rewrite IH]. Qed.

Lemma length_take (n : nat) (a : string) :
  String.length (bytes.take n a) = Nat.min n (String.length a).
Proof.
  revert a; induction n as [|n IH]; intros [|x a]; simpl; try reflexivity.
  now rewrite IH.
Qed.

Lemma length_drop (n : nat) (a : string) :
  String.length (bytes.drop n a) = String.length a - n.
Proof.
  revert a; induction n as [|n IH]; intros [|x a]; simpl; try reflexivity.
  apply IH.
Qed.

Lemma IndexByte_absent (s : string) (c : ascii) :
  bytes.mem c s = false -> bytes.IndexByte s c = None.
Proof.
  induction s as [|x s IH]; simpl; [reflexivity |].
  intros H. apply orb_false_iff in H as [Hx Hs].
  rewrite Hx, (IH Hs). reflexivity.
Qed.

Lemma IndexByte_first (a b : string) (c : ascii) :
  bytes.mem c a = false ->
  bytes.IndexByte (a +:+ String c b) c = Some (String.length a).
Proof.
  string_ind a.
  - intros _. now rewrite Ascii.eqb_refl.
  - intros H. apply orb_false_iff in H as [Hx Hs].
    rewrite Hx, (IH Hs). reflexivity.
Qed.

Lemma IndexByte_bound (s : string) (c : ascii) (i : nat) :
  bytes.IndexByte s c = Some i -> i < String.length s.
Proof.
  revert i; induction s as [|x s IH]; simpl; intros i H; [discriminate |].
  destruct (Ascii.eqb x c).
  - injection H as <-. lia.
  - destruct (bytes.IndexByte s c) as [j|]; simpl in H; [|discriminate].
    injection H as <-. specialize (IH j eq_refl). lia.
Qed.

Lemma take_S_append (a b : string) (c : ascii) :
  bytes.take (S (String.length a)) (a +:+ String c b) = a +:+ String c "".
Proof.
  induction a as [|x a IH]; [now destruct b |].
  change (String x (bytes.take (S (String.length a)) (a +:+ String c b))
          = String x (a +:+ String c "")).
  now rewrite IH.
Qed.

Lemma drop_S_append (a b : string) (c : ascii) :
  bytes.drop (S (String.length a)) (a +:+ String c b) = b.
Proof. induction a as [|x a IH]; [reflexivity | exact IH]. Qed.

Lemma mem_append (c : ascii) (a b : string) :
  bytes.mem c (a +:+ b) = bytes.mem c a || bytes.mem c b.
Proof. string_ind a; simpl; [reflexivity | now rewrite IH, orb_assoc]. Qed.

Lemma last_append_byte (a : string) (c : ascii) :
  bytes.last (a +:+ String c "") = Some c.
Proof.
  string_ind a; simpl; [reflexivity |].
  rewrite IH. destruct (a +:+ String c "") eqn:E; [|reflexivity].
  destruct a; discriminate E.
Qed.

Lemma get_before_last (a t : string) :
  a <> ""%string ->
  String.get (String.length a - 1) (a +:+ t) = bytes.last a.
Proof.
  induction a as [|x a IH]; [congruence | intros _].
  destruct a as [|y a].
  - reflexivity.
  - specialize (IH ltac:(discriminate)).
    cbn [String.length] in IH |- *.
    replace (S (S (String.length a)) - 1) with (S (S (String.length a) - 1)) by lia.
    exact IH.
Qed.

Lemma starts_with_append (c x : ascii) (a : string) :
  Ascii.eqb x c = false ->
  bytes.starts_with c (a +:+ String x "") = bytes.starts_with c a.
Proof. intros H. destruct a; simpl; [exact H | reflexivity]. Qed.

Lemma crlf_to_lf_length (line : string) :
  String.length (csv.crlf_to_lf line) <= String.length line.
Proof.
  unfold csv.crlf_to_lf.
  destruct (2 <=? String.length line) eqn:E; [| simpl; lia].
  apply Nat.leb_le in E.
  destruct (_ && _ && _); [| lia].
  rewrite length_append, length_take. simpl. lia.
Qed.

Lemma crlf_to_lf_plain (line : string) :
  bytes.ends_with CR line = false ->
  csv.crlf_to_lf (line +:+ String LF "") = line +:+ String LF "".
Proof.
  intros Hcr. unfold csv.crlf_to_lf.
  rewrite length_append. cbn [String.length].
  replace (String.length line + 1 - 2) with (String.length line - 1) by lia.
  destruct line as [|c0 t] eqn:El.
  - reflexivity.
  - rewrite <- El in *.
    rewrite get_before_last by (rewrite El; discriminate).
    unfold bytes.ends_with in Hcr.
    destruct (bytes.last line) as [x|] eqn:Hl.
    + rewrite (bool_decide_eq_false_2 (Some x = Some CR)).
      * rewrite andb_false_r. reflexivity.
      * intros [= ->]. rewrite Ascii.eqb_refl in Hcr. discriminate.
    + rewrite (bool_decide_eq_false_2 (None = Some CR)) by discriminate.
      rewrite andb_false_r. reflexivity.
Qed.

Lemma readLine_plain (line rest : string) (e : option error) :
  bytes.mem LF line = false ->
  bytes.ends_with CR line = false ->
  csv.readLine (line +:+ String LF rest, e) = (line +:+ String LF "", None, (rest, e)).
Proof.
  intros Hlf Hcr. unfold csv.readLine.
  rewrite (IndexByte_first line rest LF Hlf), take_S_append, drop_S_append.
  cbn [is_EOF]. rewrite andb_false_r.
  now rewrite crlf_to_lf_plain.
Qed.

(** ** The CSV reader always answers

    The loops of [readRecord] are given one unit of fuel for every byte of
    the line in hand and of the input; each turn uses up at least one byte,
    so the fuel is never exhausted. *)

Lemma readLine_shrinks (s : csv.src) :
  String.length (fst (fst (csv.readLine s))) + String.length (fst (snd (csv.readLine s)))
    <= String.length (fst s) /\
  (snd (fst (csv.readLine s)) = None ->
   String.length (fst (snd (csv.readLine s))) < String.length (fst s)).
Proof.
  destruct s as [d e]. unfold csv.readLine.
  destruct (bytes.IndexByte d LF) as [i|] eqn:Hi.
  - apply IndexByte_bound in Hi.
    cbn [is_EOF]. rewrite andb_false_r. cbn [fst snd].
    pose proof (crlf_to_lf_length (bytes.take (S i) d)) as Hn.
    rewrite length_take in Hn. rewrite length_drop. lia.
  - destruct ((0 <? String.length d) && is_EOF (Some (end_error e))) eqn:E.
    + apply andb_true_iff in E as [E _]. apply Nat.ltb_lt in E.
      cbn [fst snd String.length].
      match goal with
      | |- context [csv.crlf_to_lf ?l] =>
          pose proof (crlf_to_lf_length l) as Hn;
          assert (String.length l <= String.length d)
            by (destruct (bytes.ends_with CR d); rewrite ?length_take; lia)
      end.
      lia.
    + cbn [fst snd String.length].
      pose proof (crlf_to_lf_length d). split; [lia | discriminate].
Qed.

Lemma firstLine_runs (fuel : nat) (s : csv.src) :
  String.length (fst s) < fuel -> is_Some (csv.firstLine fuel s).
Proof.
  revert s; induction fuel as [|fuel IH]; intros s Hlen; [lia |].
  cbn [csv.firstLine].
  pose proof (readLine_shrinks s) as [_ Hlt].
  destruct (csv.readLine s) as [[line err] s']. cbn [fst snd] in Hlt.
  destruct err as [e|]; [eauto |].
  destruct (String.length line =? csv.lengthNL line); [| eauto].
  apply IH. specialize (Hlt eq_refl). lia.
Qed.

Lemma parse_runs (fuel : nat) :
  (forall line errRead s fields,
     String.length line + String.length (fst s) < fuel ->
     is_Some (csv.parseField fuel line errRead s fields)) /\
  (forall line errRead s cur fields,
     String.length line + String.length (fst s) < fuel ->
     is_Some (csv.quotedField fuel line errRead s cur fields)).
Proof.
  induction fuel as [|fuel [IHp IHq]]; [split; intros; lia |].
  split.
  - intros line errRead s fields Hlen. cbn [csv.parseField].
    destruct (negb (bytes.starts_with QUOTE line)) eqn:Hq.
    + destruct (bytes.IndexByte line COMMA) as [i|] eqn:Hi; [| eauto].
      apply IHp. rewrite length_drop. apply IndexByte_bound in Hi. lia.
    + apply IHq. rewrite length_drop.
      destruct line; [discriminate Hq | simpl in *; lia].
  - intros line errRead s cur fields Hlen. cbn [csv.quotedField].
    destruct (bytes.IndexByte line QUOTE) as [i|] eqn:Hi.
    + apply IndexByte_bound in Hi.
      assert (Hd : String.length (bytes.drop (i + 1) line) < String.length line)
        by (rewrite length_drop; lia).
      destruct (bytes.starts_with QUOTE (bytes.drop (i + 1) line)).
      { apply IHq. rewrite length_drop. lia. }
      destruct (bytes.starts_with COMMA (bytes.drop (i + 1) line)).
      { apply IHp. rewrite length_drop. lia. }
      destruct (csv.lengthNL _ =? _); [eauto |].
      apply IHq. lia.
    + destruct (0 <? String.length line) eqn:E; [| eauto].
      apply Nat.ltb_lt in E.
      destruct errRead as [e|]; [eauto |].
      pose proof (readLine_shrinks s) as [Hle _].
      destruct (csv.readLine s) as [[line' err'] s']. cbn [fst snd] in Hle.
      apply IHq. lia.
Qed.

Theorem readRecord_runs (s : csv.src) : is_Some (csv.readRecord_opt s).
Proof.
  unfold csv.readRecord_opt.
  destruct (firstLine_runs (S (String.length (fst s))) s ltac:(lia))
    as [[[line err] s'] ->].
  destruct (is_EOF err); [eauto |].
  apply (proj1 (parse_runs _)). lia.
Qed.

Corollary readRecord_is_run (s : csv.src) :
  csv.readRecord_opt s = Some (csv.readRecord s).
Proof.
  unfold csv.readRecord. now destruct (readRecord_runs s) as [r ->].
Qed.

(** ** The primitives on an open stream *)

Lemma ReadAll_at (h : nat) (s : Stream) (σ : State) :
  streams σ !! h = Some s ->
  s_nilsrc s = false ->
  io.ReadAll (Some h) σ
  = (Returns (fst (readable s),
              if is_EOF (Some (end_error (snd (readable s)))) then None
              else Some (end_error (snd (readable s)))),
     upd h (advance s "") σ).
Proof.
  intros Hh Hnil. unfold io.ReadAll, reading, deref. unfold_M.
  rewrite Hh, Hnil. destruct (readable s) as [d e]. reflexivity.
Qed.

Lemma Close_own (h : nat) (s : Stream) (σ : State) :
  streams σ !! h = Some s ->
  s_chain s = Own ->
  io.Close (Some h) σ = (Returns None, upd h (close_mark s) σ).
Proof.
  intros Hh Hc. unfold io.Close.
  destruct s as [d e c n ch]; simpl in Hc; subst ch.
  destruct (length (streams σ)); simpl; unfold deref; unfold_M;
    rewrite Hh; reflexivity.
Qed.

Lemma lookup_upd (h : nat) (s : Stream) (σ : State) :
  h < length (streams σ) -> streams (upd h s σ) !! h = Some s.
Proof. intros H. simpl. now apply list_lookup_insert_eq. Qed.

Lemma Peek_at (h : nat) (s : Stream) (σ : State) (n : nat) :
  streams σ !! h = Some s ->
  s_nilsrc s = false ->
  bufio.Peek (Some h) n σ
  = (Returns (if n <=? String.length (fst (readable s))
              then (bytes.take n (fst (readable s)), None)
              else (fst (readable s), Some (end_error (snd (readable s))))), σ).
Proof.
  intros Hh Hnil. unfold bufio.Peek, reading, deref. unfold_M.
  rewrite Hh, Hnil. destruct (readable s) as [d e]. cbn [fst snd].
  destruct (n <=? String.length d); reflexivity.
Qed.

Lemma Discard_at (h : nat) (s : Stream) (σ : State) (n : nat) :
  streams σ !! h = Some s ->
  s_nilsrc s = false ->
  bufio.Discard (Some h) n σ
  = (Returns tt, upd h (advance s (bytes.drop n (fst (readable s)))) σ).
Proof.
  intros Hh Hnil. unfold bufio.Discard, reading, deref. unfold_M.
  rewrite Hh, Hnil. destruct (readable s) as [d e]. reflexivity.
Qed.

Lemma Read_at (h : nat) (s : Stream) (σ : State) :
  streams σ !! h = Some s ->
  s_nilsrc s = false ->
  csv.Read (Some h) σ
  = (Returns (fst (fst (csv.readRecord (readable s))),
              snd (fst (csv.readRecord (readable s)))),
     upd h (advance s (fst (snd (csv.readRecord (readable s))))) σ).
Proof.
  intros Hh Hnil. unfold csv.Read, reading, deref. unfold_M.
  rewrite Hh, Hnil.
  destruct (csv.readRecord (readable s)) as [[record err] [d e]]. reflexivity.
Qed.

(** ** [csvHeader] on short streams *)

(** C10. On a stream with fewer than 3 unread bytes [csvHeader] returns an
    error and neither header nor reader, whatever the bytes are: the error
    is the one that ended [Peek(3)], and no byte is consumed. *)
Theorem csvHeader_short_stream (h : nat) (s : Stream) (σ : State) :
  streams σ !! h = Some s ->
  s_nilsrc s = false ->
  String.length (s_data s) < 3 ->
  csvHeader (Some h) σ
  = (Returns ([], None, Some (end_error (snd (readable s)))), σ).
Proof.
  intros Hh Hnil Hlen.
  unfold csvHeader, bufio.Peek, reading, deref. unfold_M.
  rewrite Hh, Hnil.
  assert (Hr : String.length (fst (readable s)) < 3).
  { unfold readable. destruct (s_closed s); simpl; lia. }
  destruct (readable s) as [d e]. simpl in Hr.
  assert (E : (3 <=? String.length d) = false) by (apply Nat.leb_gt; lia).
  cbv beta iota zeta. rewrite E. reflexivity.
Qed.

Lemma csvHeader_short_stream_witness :
  csvHeader (Some 0) (one_stream ("a" +:+ String LF ""))
  = (Returns ([], None, Some io_EOF), one_stream ("a" +:+ String LF "")).
Proof.
  apply (csvHeader_short_stream 0 (plain_stream ("a" +:+ String LF "")));
    [reflexivity | reflexivity | simpl; lia].
Defined.

(** ** [preExtract] *)

(** C8. With an empty method and an empty url [preExtract] returns the
    extraction it was given and a nil error, and leaves the state as it
    was: no request is sent (the trace is unchanged). *)
Theorem preExtract_no_op (env : Env) (p : PreExtraction) (e : Extraction) (σ : State) :
  p_Method p = ""%string ->
  p_Url p = ""%string ->
  preExtract env p e σ = (Returns (e, None), σ).
Proof.
  intros Hm Hu. unfold preExtract. rewrite Hm, Hu. reflexivity.
Qed.

Lemma preExtract_no_op_witness :
  preExtract (sample_env 500 "")
    {| p_Method := ""; p_Url := ""; p_Body := ∅; p_Pattern := "[" |}
    {| e_Method := "GET"; e_Url := "http://example.com/data.csv"; e_Body := ∅ |}
    no_streams
  = (Returns ({| e_Method := "GET"; e_Url := "http://example.com/data.csv";
                 e_Body := ∅ |}, None), no_streams).
Proof. apply preExtract_no_op; reflexivity. Defined.

(** What [request] does, case by case. *)
Lemma request_cases (env : Env) (method url : string) (body : gmap string string)
    (σ : State) :
  match http_NewRequest env method url with
  | Some err => request env method url body σ = (Returns (None, Some err), σ)
  | None =>
      let σ1 := {| streams := streams σ;
                   trace := trace σ ++ [EvHTTP method url body (negb (size body =? 0))] |} in
      match http_Do env method url body with
      | inl err => request env method url body σ = (Returns (None, Some err), σ1)
      | inr (code, content, ending) =>
          let σ2 := {| streams := streams σ ++
                         [{| s_data := content; s_end := ending; s_closed := false;
                             s_nilsrc := false; s_chain := Own |}];
                       trace := trace σ1 |} in
          request env method url body σ
          = (Returns (if (299 <? code)%Z
                      then (None, Some (ErrStatus code body))
                      else (Some (length (streams σ)), None)), σ2)
      end
  end.
Proof.
  unfold request.
  destruct (http_NewRequest env method url) as [err|]; [reflexivity |].
  unfold_M. unfold emit. simpl.
  destruct (http_Do env method url body) as [err | [[code content] ending]];
    [reflexivity |].
  unfold alloc. simpl. destruct (299 <? code)%Z; reflexivity.
Qed.





(** ** [load] and the nil stream *)

(** C3, on the code: [load] on the nil stream panics.  [csvHeader] wraps
    the nil reader in a buffered reader, and [Peek] calls [Read] on it; the
    panic comes before [defer r.Close()] is reached, and no error is
    returned. *)
Theorem load_nil_stream_panics (env : Env) (projectID datasetID tableID : string)
    (σ : State) :
  load env projectID datasetID tableID None σ = (Panics nil_dereference, σ).
Proof. reflexivity. Qed.

(** ** [request] *)

(** C6, as the code has it.  [request] always returns; it returns an error
    exactly when the request cannot be built, when the transport fails, or
    when the status code is above 299. *)
Theorem request_fails_iff (env : Env) (method url : string)
    (body : gmap string string) (σ : State) :
  (exists res, fst (request env method url body σ) = Returns res) /\
  ((exists r er, fst (request env method url body σ) = Returns (r, Some er)) <->
   (is_Some (http_NewRequest env method url) \/
    (http_NewRequest env method url = None /\
     ((exists er, http_Do env method url body = inl er) \/
      (exists code content ending,
         http_Do env method url body = inr (code, content, ending) /\
         (299 < code)%Z))))).
Proof.
  pose proof (request_cases env method url body σ) as H.
  destruct (http_NewRequest env method url) as [er|].
  { rewrite H. simpl. split; [eauto |]. split; [intros _; left; eauto | eauto]. }
  destruct (http_Do env method url body) as [er | [[code content] ending]];
    simpl in H; rewrite H; simpl.
  { split; [eauto |]. split; [intros _; right; eauto | eauto]. }
  destruct (299 <? code)%Z eqn:E.
  - apply Z.ltb_lt in E. split; [eauto |].
    split; [intros _; right; split; [reflexivity | right; eauto 6] | eauto].
  - apply Z.ltb_ge in E. split; [eauto |]. split.
    + intros (r & er & Heq). discriminate Heq.
    + intros [[x Hx] | [_ [[er Her] | (c & ct & en & Heq & Hlt)]]];
        try discriminate.
      injection Heq as -> _ _. lia.
Qed.

(** C6 as stated does not hold: a response with status code 99 is outside
    [100,299], and [request] returns its body and a nil error. *)
Lemma request_status_99_succeeds :
  http_Do (sample_env 99 "body") "GET" "http://example.com/" ∅
    = inr (99%Z, "body"%string, None) /\
  fst (request (sample_env 99 "body") "GET" "http://example.com/" ∅ no_streams)
    = Returns (Some 0, None).
Proof. split; reflexivity. Qed.

(** ** [unzip] *)

(** C5.  On a stream that can be read to its end and closed, holding an
    archive that [zip.NewReader] accepts, [unzip] looks at the first entry
    only: it returns a new stream over the bytes of that entry (or the error
    of opening it), and for an archive without entries the nil stream with a
    nil error.  The input has been read to its end and closed. *)
Theorem unzip_first_entry (env : Env) (h : nat) (s : Stream) (σ : State)
    (File : list zipFile) (cerr : option error) :
  streams σ !! h = Some s ->
  s_nilsrc s = false ->
  is_EOF (Some (end_error (snd (readable s)))) = true ->
  fst (io.Close (Some h) (upd h (advance s "") σ)) = Returns cerr ->
  zip_NewReader env (fst (readable s)) = inr File ->
  let σc := snd (io.Close (Some h) (upd h (advance s "") σ)) in
  unzip env (Some h) σ
  = match File with
    | [] => (Returns (None, None), σc)
    | f :: _ =>
        match zf_Open f with
        | inl e => (Returns (None, Some e), σc)
        | inr (content, ending) =>
            (Returns (Some (length (streams σc)), None),
             {| streams := streams σc ++
                  [{| s_data := content; s_end := ending; s_closed := false;
                      s_nilsrc := false; s_chain := Own |}];
                trace := trace σc |})
        end
    end.
Proof.
  intros Hh Hnil Hend Hclose Hzip σc.
  unfold unzip, io.Copy. unfold_M.
  rewrite (ReadAll_at h s σ Hh Hnil), Hend.
  subst σc.
  destruct (io.Close (Some h) (upd h (advance s "") σ)) as [o σc].
  simpl in Hclose. subst o. simpl.
  rewrite Hzip.
  destruct File as [|f rest]; [reflexivity |].
  destruct (zf_Open f) as [e | [content ending]]; reflexivity.
Qed.

Lemma unzip_first_entry_witness :
  unzip (zip_env [entry "a.csv" "x,y"; entry "b.csv" "z"]) (Some 0) (one_stream "PK")
  = (Returns (Some 1, None),
     {| streams := [close_mark (plain_stream ""); plain_stream "x,y"]; trace := [] |})
  /\
  unzip (zip_env []) (Some 0) (one_stream "PK")
  = (Returns (None, None),
     {| streams := [close_mark (plain_stream "")]; trace := [] |}).
Proof.
  split.
  - apply (unzip_first_entry (zip_env [entry "a.csv" "x,y"; entry "b.csv" "z"])
             0 (plain_stream "PK") (one_stream "PK")
             [entry "a.csv" "x,y"; entry "b.csv" "z"] None); reflexivity.
  - apply (unzip_first_entry (zip_env []) 0 (plain_stream "PK") (one_stream "PK")
             [] None); reflexivity.
Defined.

(** ** No load after an unknown tweak *)

Section Quiet.

Context {A B : Type}.

Lemma quiet_ret (a : A) : quiet (mret a : M A).
Proof. intros σ. reflexivity. Qed.

Lemma quiet_panic (msg : string) : quiet (panic msg : M A).
Proof. intros σ. reflexivity. Qed.

Lemma quiet_bind (m : M A) (k : A -> M B) :
  quiet m -> (forall a, quiet (k a)) -> quiet (m ≫= k).
Proof.
  intros Hm Hk σ. unfold_M. specialize (Hm σ).
  destruct (m σ) as [[a|msg|c] σ1]; simpl in *; try exact Hm.
  rewrite (Hk a σ1). exact Hm.
Qed.

Lemma quiet_defer (d : M B) (body : M A) :
  quiet d -> quiet body -> quiet (defer d body).
Proof.
  intros Hd Hb σ. unfold defer. specialize (Hb σ).
  destruct (body σ) as [[a|msg|c] σ1]; simpl in *; try exact Hb;
    specialize (Hd σ1); destruct (d σ1) as [[b|msg'|c'] σ2]; simpl in *;
    congruence.
Qed.

End Quiet.

Lemma quiet_emit (ev : Event) : is_load_event ev = false -> quiet (emit ev).
Proof.
  intros H σ. unfold load_events, emit. simpl.
  rewrite List.filter_app. simpl. rewrite H. apply app_nil_r.
Qed.

Lemma quiet_alloc (s : Stream) : quiet (alloc s).
Proof. intros σ. reflexivity. Qed.

Lemma quiet_set_stream (h : nat) (s : Stream) : quiet (set_stream h s).
Proof. intros σ. reflexivity. Qed.

Lemma quiet_deref (r : Reader) : quiet (deref r).
Proof.
  intros σ. unfold deref. destruct r as [h|]; [|reflexivity].
  destruct (streams σ !! h); reflexivity.
Qed.

Lemma quiet_reading (r : Reader) : quiet (reading r).
Proof.
  unfold reading. apply quiet_bind; [apply quiet_deref |].
  intros [h s]. destruct (s_nilsrc s); [apply quiet_panic | apply quiet_ret].
Qed.

Lemma quiet_ReadAll (r : Reader) : quiet (io.ReadAll r).
Proof.
  unfold io.ReadAll. apply quiet_bind; [apply quiet_reading |].
  intros [h s]. destruct (readable s) as [d e].
  apply quiet_bind; [apply quiet_set_stream | intros _; apply quiet_ret].
Qed.

Lemma quiet_close_chain (fuel : nat) (c : Reader) : quiet (io.close_chain fuel c).
Proof.
  revert c; induction fuel as [|fuel IH]; intros c; simpl;
    (apply quiet_bind; [apply quiet_deref |]); intros [h s];
    destruct (s_chain s);
    repeat first [ apply quiet_ret | apply quiet_panic | apply quiet_set_stream
                 | apply IH | apply quiet_bind | intros ? ].
Qed.

Lemma quiet_Close (c : Reader) : quiet (io.Close c).
Proof. intros σ. unfold io.Close. apply quiet_close_chain. Qed.

Ltac quiet_step :=
  first [ apply quiet_ret | apply quiet_panic | apply quiet_alloc
        | apply quiet_set_stream | apply quiet_deref | apply quiet_reading
        | apply quiet_ReadAll | apply quiet_Close
        | apply quiet_emit; reflexivity
        | apply quiet_defer | apply quiet_bind | intros ? ].

Lemma quiet_request (env : Env) (method url : string) (body : gmap string string) :
  quiet (request env method url body).
Proof.
  unfold request. destruct (http_NewRequest env method url); [apply quiet_ret |].
  apply quiet_bind; [apply quiet_emit; reflexivity | intros _].
  destruct (http_Do env method url body) as [er | [[code content] ending]];
    [apply quiet_ret |].
  apply quiet_bind; [apply quiet_alloc | intros Body].
  destruct (299 <? code)%Z; apply quiet_ret.
Qed.

Lemma quiet_convert (env : Env) (label : string) (r : Reader) :
  quiet (convert env label r).
Proof.
  unfold convert. destruct (charset_Lookup env label) as [decode|];
    [| apply quiet_ret].
  destruct r as [h|].
  - apply quiet_bind; [apply quiet_deref |]. intros [h' st].
    apply quiet_bind; [apply quiet_alloc | intros nr; apply quiet_ret].
  - apply quiet_bind; [apply quiet_alloc | intros nr; apply quiet_ret].
Qed.

Lemma quiet_unzip (env : Env) (reader : Reader) : quiet (unzip env reader).
Proof.
  unfold unzip, io.Copy. apply quiet_bind; [apply quiet_ReadAll |].
  intros [b [e|]]; [apply quiet_ret |].
  apply quiet_bind; [apply quiet_Close | intros _].
  destruct (zip_NewReader env b) as [e | [|f rest]]; try apply quiet_ret.
  destruct (zf_Open f) as [e | [content ending]]; repeat quiet_step.
Qed.

Lemma quiet_tweak (env : Env) (t : Tweak) (reader : Reader) :
  quiet (tweak env t reader).
Proof.
  unfold tweak. repeat case_bool_decide.
  - apply quiet_bind; [apply quiet_unzip |].
    intros [r [e|]]; apply quiet_ret.
  - apply quiet_bind; [apply quiet_convert |].
    intros [r [e|]]; apply quiet_ret.
  - apply quiet_ret.
Qed.

Lemma quiet_tweak_all (env : Env) (ts : list Tweak) (reader : Reader) :
  quiet (tweak_all env ts reader).
Proof.
  revert reader; induction ts as [|t ts IH]; intros reader; simpl.
  - apply quiet_ret.
  - apply quiet_bind; [apply quiet_tweak |].
    intros [r [e|]]; [apply quiet_ret | apply IH].
Qed.

Lemma quiet_preExtract (env : Env) (p : PreExtraction) (e : Extraction) :
  quiet (preExtract env p e).
Proof.
  unfold preExtract.
  destruct (bool_decide (p_Method p = ""%string) && bool_decide (p_Url p = ""%string));
    [apply quiet_ret |].
  apply quiet_bind; [apply quiet_request |].
  intros [reader [er|]]; [apply quiet_ret |].
  apply quiet_defer; [apply quiet_Close |].
  apply quiet_bind; [apply quiet_ReadAll |].
  intros [b [er|]]; [intros σ; reflexivity |].
  apply quiet_bind; [| intros re; apply quiet_ret].
  unfold MustCompile. destruct (regexp_Compile env (p_Pattern p));
    [apply quiet_panic | apply quiet_ret].
Qed.

Lemma quiet_internal_server_error : quiet internal_server_error.
Proof. unfold internal_server_error. repeat quiet_step. Qed.

Lemma internal_server_error_run (σ : State) :
  internal_server_error σ
  = (Returns tt, {| streams := streams σ;
                    trace := trace σ ++ [EvWriteHeader 500; EvWrite error_json] |}).
Proof.
  unfold internal_server_error, emit. unfold_M. simpl.
  now rewrite <- app_assoc.
Qed.

Lemma tweak_unknown (env : Env) (t : Tweak) (reader : Reader) (σ : State) :
  unknown_call t ->
  tweak env t reader σ = (Returns (None, Some (ErrUnsupportedCall (t_Call t))), σ).
Proof.
  intros [H1 H2]. unfold tweak.
  rewrite !bool_decide_eq_false_2 by assumption. reflexivity.
Qed.

(** A chain with an unknown tweak never hands a stream on: it ends with an
    error, at the unknown tweak or before it, or it panics before it. *)
Lemma tweak_all_unknown (env : Env) (ts : list Tweak) :
  (exists t, t ∈ ts /\ unknown_call t) ->
  forall reader σ r, fst (tweak_all env ts reader σ) <> Returns (r, None).
Proof.
  induction ts as [|t ts IH]; intros (u & Hin & Hu) reader σ r.
  - inversion Hin.
  - simpl. unfold_M.
    destruct (tweak env t reader σ) as [[[r' [e|]]|msg|c] σ1] eqn:E; simpl;
      try discriminate.
    apply elem_of_cons in Hin as [-> | Hin].
    + rewrite (tweak_unknown env t reader σ Hu) in E. discriminate E.
    + apply IH. eauto.
Qed.

Lemma handler_is_handler_with (env : Env) (requestBody : string) :
  handler env requestBody = handler_with env (load env) requestBody.
Proof. reflexivity. Qed.

Ltac abort_case :=
  rewrite ?internal_server_error_run; simpl;
  try (split; [unfold load_events in *; simpl;
               rewrite ?List.filter_app, ?app_nil_r; simpl;
               rewrite ?app_nil_r; congruence
              | split; [first [discriminate | eauto] | reflexivity]]).

(** With an unknown tweak in the chain the run ends before the call of
    [load]: it is the same run whatever stands in the place of [load]. *)
Lemma handler_with_aborts (env : Env)
    (ld : string -> string -> string -> Reader -> M (option error))
    (requestBody : string) (d : Config) (σ : State) :
  json_Decode env requestBody = inr d ->
  (exists t, t ∈ d_Tweaks d /\ unknown_call t) ->
  load_events (snd (handler_with env ld requestBody σ)) = load_events σ /\
  (fst (handler_with env ld requestBody σ) = Returns tt ->
   exists pre, trace (snd (handler_with env ld requestBody σ))
               = pre ++ [EvWriteHeader 500; EvWrite error_json]) /\
  handler_with env ld requestBody σ
  = handler_with env (fun _ _ _ _ => mret None) requestBody σ.
Proof.
  intros Hjson Hunk.
  unfold handler_with. unfold_M.
  pose proof (quiet_emit (EvSetHeader "Content-Type" "application/json")
                eq_refl σ) as Q0.
  destruct (emit (EvSetHeader "Content-Type" "application/json") σ)
    as [[[]|msg|c] σ0] eqn:E0; try discriminate E0.
  simpl in Q0. rewrite Hjson.
  pose proof (quiet_preExtract env (d_PreExtraction d) (d_Extraction d) σ0) as Q1.
  destruct (preExtract env (d_PreExtraction d) (d_Extraction d) σ0)
    as [[[e [er|]]|msg|c] σ1]; simpl in Q1; abort_case.
  pose proof (quiet_request env (e_Method e) (e_Url e) (e_Body e) σ1) as Q2.
  destruct (request env (e_Method e) (e_Url e) (e_Body e) σ1)
    as [[[reader [er|]]|msg|c] σ2]; simpl in Q2; abort_case.
  pose proof (quiet_tweak_all env (d_Tweaks d) reader σ2) as Q3.
  pose proof (tweak_all_unknown env (d_Tweaks d) Hunk reader σ2) as Hnone.
  destruct (tweak_all env (d_Tweaks d) reader σ2)
    as [[[reader' [er|]]|msg|c] σ3]; simpl in Q3, Hnone; abort_case.
  exfalso. exact (Hnone reader' eq_refl).
Qed.

(** C7.  A tweak whose call is neither "unzip" nor "convert" fails with
    the error "unsupported call" and leaves the state as it was: the input
    stream is neither read nor closed.  A run whose chain holds such a tweak
    never calls [load]: it is the same run whatever function stands in the
    place of [load], it makes no call to BigQuery, and when [handler]
    returns it has answered with status 500. *)
Theorem unknown_tweak_aborts (env : Env) :
  (forall t reader σ,
     t_Call t <> "unzip"%string -> t_Call t <> "convert"%string ->
     tweak env t reader σ
     = (Returns (None, Some (ErrUnsupportedCall (t_Call t))), σ)) /\
  (forall requestBody d σ,
     json_Decode env requestBody = inr d ->
     (exists t, t ∈ d_Tweaks d /\
                t_Call t <> "unzip"%string /\ t_Call t <> "convert"%string) ->
     (forall ld, handler_with env ld requestBody σ = handler env requestBody σ) /\
     load_events (snd (handler env requestBody σ)) = load_events σ /\
     (fst (handler env requestBody σ) = Returns tt ->
      exists pre, trace (snd (handler env requestBody σ))
                  = pre ++ [EvWriteHeader 500; EvWrite error_json])).
Proof.
  split.
  { intros t reader σ H1 H2. apply tweak_unknown. split; assumption. }
  intros requestBody d σ Hjson Hunk.
  rewrite handler_is_handler_with.
  destruct (handler_with_aborts env (load env) requestBody d σ Hjson Hunk)
    as (Hquiet & Hanswer & Hsame).
  split; [| split; assumption].
  intros ld.
  destruct (handler_with_aborts env ld requestBody d σ Hjson Hunk)
    as (_ & _ & Hld).
  congruence.
Qed.

Lemma unknown_tweak_aborts_witness :
  let env := full_env 200 "PK" [entry "a.csv" "h"]
               (Some (sample_config [{| t_Call := "unzip"; t_Args := ∅ |};
                                     {| t_Call := "gunzip"; t_Args := ∅ |}])) in
  load_events (snd (handler env "{}" no_streams)) = [] /\
  exists pre, trace (snd (handler env "{}" no_streams))
              = pre ++ [EvWriteHeader 500; EvWrite error_json].
Proof.
  intros env.
  destruct (proj2 (unknown_tweak_aborts env) "{}"%string
              (sample_config [{| t_Call := "unzip"; t_Args := ∅ |};
                              {| t_Call := "gunzip"; t_Args := ∅ |}])
              no_streams eq_refl) as (_ & H1 & H2).
  - exists {| t_Call := "gunzip"; t_Args := ∅ |}.
    split; [set_solver | split; discriminate].
  - split; [exact H1 | apply H2; reflexivity].
Defined.

(** The failing run behind C3: the chain [unzip] on an archive without
    entries hands the nil stream to [load], and [handler] panics without
    having answered. *)
Example handler_empty_archive_panics :
  handler (full_env 200 "PK" []
             (Some (sample_config [{| t_Call := "unzip"; t_Args := ∅ |}])))
          "{}" no_streams
  = (Panics nil_dereference,
     {| streams := [close_mark (plain_stream "")];
        trace := [EvSetHeader "Content-Type" "application/json";
                  EvHTTP "GET" "http://example.com/data.zip" ∅ false] |}).
Proof. vm_compute. reflexivity. Qed.

(** ** [formatMap] *)

Lemma foldl_ExpandString (re : Regexp) (template content : string)
    (ms : list (list Z)) (acc : string) :
  foldl (fun result m => ExpandString re result template content m) acc ms
  = acc +:+ bytes.concat (map (expansion re template content) ms).
Proof.
  revert acc; induction ms as [|m ms IH]; intros acc; simpl.
  - now rewrite append_empty_r.
  - rewrite IH. unfold ExpandString. apply append_assoc.
Qed.

(** C2.  [formatMap] maps every name of [templates] to the concatenation,
    in match order, of the expansions of its template against all the
    matches of the pattern in the content; a name that is not in
    [templates] is not in the result.  So without a match every name maps
    to the empty string, and without templates the result is empty. *)
Theorem formatMap_concat (templates : gmap string string) (pattern : Regexp)
    (content : string) :
  formatMap templates pattern content
  = (fun template =>
       bytes.concat (map (expansion pattern template content)
                         (FindAllStringSubmatchIndex pattern content)))
    <$> templates
  /\ (FindAllStringSubmatchIndex pattern content = [] ->
      formatMap templates pattern content = (fun _ => ""%string) <$> templates)
  /\ formatMap ∅ pattern content = ∅.
Proof.
  assert (Hmain : formatMap templates pattern content
    = (fun template =>
         bytes.concat (map (expansion pattern template content)
                           (FindAllStringSubmatchIndex pattern content)))
      <$> templates).
  { unfold formatMap.
    apply (map_fold_weak_ind
             (fun (r : gmap string string) (m : gmap string string) =>
                r = (fun template =>
                       bytes.concat (map (expansion pattern template content)
                                         (FindAllStringSubmatchIndex pattern content)))
                    <$> m)).
    - now rewrite fmap_empty.
    - intros key template m r Hfresh ->.
      rewrite fmap_insert, foldl_ExpandString. reflexivity. }
  split; [exact Hmain |]. split.
  - intros Hnone. rewrite Hmain, Hnone. reflexivity.
  - reflexivity.
Qed.

Lemma formatMap_concat_witness :
  formatMap {[ "ids" := "$0"; "sep" := "k;" ]}%string (byte_pattern "a") "banana"
  = {[ "ids" := "aaa"; "sep" := "k;k;k;" ]}%string
  /\ formatMap {[ "ids" := "$0"; "sep" := "k;" ]}%string (byte_pattern "z") "banana"
     = {[ "ids" := ""; "sep" := "" ]}%string.
Proof.
  split.
  - rewrite (proj1 (formatMap_concat _ _ _)).
    rewrite fmap_insert, map_fmap_singleton. reflexivity.
  - rewrite (proj1 (proj2 (formatMap_concat _ (byte_pattern "z") "banana")) eq_refl).
    rewrite fmap_insert, map_fmap_singleton. reflexivity.
Defined.

(** ** Column names *)

Lemma DecodeRuneInString_width (s : string) :
  s <> ""%string ->
  1 <= snd (utf8.DecodeRuneInString s) <= 4.
Proof.
  destruct s as [|c0 t]; [congruence | intros _].
  unfold utf8.DecodeRuneInString.
  repeat match goal with
         | |- context [if ?b then _ else _] => destruct b
         | |- context [match ?o with Some _ => _ | None => _ end] =>
             destruct o as [[[? ?] ?]|]
         end; simpl; lia.
Qed.

Lemma replace_runes_by_rune (matches : Z -> bool) (repl : string) (fuel : nat)
    (s : string) :
  String.length s <= fuel ->
  replace_runes fuel matches s repl
  = bytes.concat (map (fun '(r, bs) => if matches r then repl else bs)
                      (runes_from fuel s)).
Proof.
  revert s; induction fuel as [|fuel IH]; intros s Hlen.
  - destruct s; [reflexivity | simpl in Hlen; lia].
  - destruct s as [|c0 t]; [reflexivity |].
    cbn [replace_runes runes_from].
    pose proof (DecodeRuneInString_width (String c0 t) ltac:(discriminate)) as Hw.
    destruct (utf8.DecodeRuneInString (String c0 t)) as [r w].
    cbn [map bytes.concat]. rewrite IH; [reflexivity |].
    rewrite length_drop. simpl in Hw, Hlen |- *. lia.
Qed.

Lemma invalidCharacters_allowed (env : Env) (r : Z) :
  invalidCharacters env r = false <-> allowed_rune env r.
Proof.
  unfold invalidCharacters, allowed_rune, allowed_items.
  rewrite negb_false_iff. cbn [existsb item_matches map In].
  rewrite !orb_true_iff, !Z.eqb_eq. intuition congruence.
Qed.

Lemma take_drop (n : nat) (s : string) : bytes.take n s +:+ bytes.drop n s = s.
Proof.
  revert s; induction n as [|n IH]; intros [|c t]; try reflexivity.
  cbn [bytes.take bytes.drop]. rewrite append_cons. now rewrite IH.
Qed.

(** The runes of a string are all of it, in order. *)
Lemma runes_from_cover (fuel : nat) (s : string) :
  String.length s <= fuel ->
  bytes.concat (map snd (runes_from fuel s)) = s.
Proof.
  revert s; induction fuel as [|fuel IH]; intros s Hlen.
  - destruct s; [reflexivity | simpl in Hlen; lia].
  - destruct s as [|c0 t]; [reflexivity |].
    cbn [runes_from].
    pose proof (DecodeRuneInString_width (String c0 t) ltac:(discriminate)) as Hw.
    destruct (utf8.DecodeRuneInString (String c0 t)) as [r w].
    cbn [map snd bytes.concat]. rewrite IH; [apply take_drop |].
    rewrite length_drop. simpl in Hw, Hlen |- *. lia.
Qed.

(** A column name rune by rune, in the terms of the pattern. *)
Lemma sanitized_column_name (env : Env) (name : string) :
  ReplaceAllString (invalidCharacters env) name "_"
  = bytes.concat
      (map (fun '(r, bs) => if invalidCharacters env r then "_"%string else bs)
           (runes name))
  /\ bytes.concat (map snd (runes name)) = name
  /\ (forall r, invalidCharacters env r = false <-> allowed_rune env r)
  /\ ReplaceAllString (invalidCharacters env) "a-b" "_" = "a-b"%string
  /\ ReplaceAllString (invalidCharacters env) "c#1" "_" = "c#1"%string
  /\ ReplaceAllString (invalidCharacters env) "a b" "_" = "a_b"%string.
Proof.
  split; [| split; [| split; [apply invalidCharacters_allowed
                             | repeat split; reflexivity]]].
  - unfold ReplaceAllString, runes. now apply replace_runes_by_rune.
  - unfold runes. now apply runes_from_cover.
Qed.

(** The two header lines of the examples, through [load]: the schema of
    the load job holds the sanitized names, in the order of the header. *)
Example load_schema_unchanged :
  trace (snd (load (sample_env 200 "") "p" "d" "t" (Some 0)
                (one_stream ("a-b,c#1" +:+ String LF ("1,2" +:+ String LF "")))))
  = [EvBQClient "p";
     EvBQRun "d" "t" ["a-b"; "c#1"]%string ("1,2" +:+ String LF "");
     EvBQWait].
Proof. vm_compute. reflexivity. Qed.

Example load_schema_replaced :
  trace (snd (load (sample_env 200 "") "p" "d" "t" (Some 0)
                (one_stream ("a b,c" +:+ String LF ("1,2" +:+ String LF "")))))
  = [EvBQClient "p";
     EvBQRun "d" "t" ["a_b"; "c"]%string ("1,2" +:+ String LF "");
     EvBQWait].
Proof. vm_compute. reflexivity. Qed.

(** ** [csvHeader] on a header line *)

Lemma Join_cons2 (f g : string) (t : list string) (sep : string) :
  bytes.Join (f :: g :: t) sep = f +:+ sep +:+ bytes.Join (g :: t) sep.
Proof. reflexivity. Qed.

Lemma parseField_S fuel line errRead s fields :
  csv.parseField (S fuel) line errRead s fields
  = if negb (bytes.starts_with QUOTE line) then
      match bytes.IndexByte line COMMA with
      | Some i =>
          csv.parseField fuel (bytes.drop (i + 1) line) errRead s
                         (fields ++ [bytes.take i line])
      | None =>
          Some (fields ++ [bytes.take (String.length line - csv.lengthNL line) line],
                errRead, s)
      end
    else csv.quotedField fuel (bytes.drop 1 line) errRead s ""%string fields.
Proof. reflexivity. Qed.

Lemma quotedField_S fuel line errRead s cur fields :
  csv.quotedField (S fuel) line errRead s cur fields
  = match bytes.IndexByte line QUOTE with
    | Some i =>
        let cur := cur +:+ bytes.take i line in
        let line := bytes.drop (i + 1) line in
        if bytes.starts_with QUOTE line then
          csv.quotedField fuel (bytes.drop 1 line) errRead s
                          (cur +:+ String QUOTE "") fields
        else if bytes.starts_with COMMA line then
          csv.parseField fuel (bytes.drop 1 line) errRead s (fields ++ [cur])
        else if csv.lengthNL line =? String.length line then
          Some (fields ++ [cur], errRead, s)
        else
          csv.quotedField fuel line errRead s (cur +:+ String QUOTE "") fields
    | None =>
        if 0 <? String.length line then
          match errRead with
          | Some _ => Some (fields, errRead, s)
          | None =>
              let '(line', errRead', s') := csv.readLine s in
              csv.quotedField fuel line'
                              (if is_EOF errRead' then None else errRead')
                              s' (cur +:+ line) fields
          end
        else Some (fields ++ [cur], errRead, s)
    end.
Proof. reflexivity. Qed.

Lemma parse_more_fuel (fuel : nat) :
  (forall line errRead s fields r,
     csv.parseField fuel line errRead s fields = Some r ->
     csv.parseField (S fuel) line errRead s fields = Some r) /\
  (forall line errRead s cur fields r,
     csv.quotedField fuel line errRead s cur fields = Some r ->
     csv.quotedField (S fuel) line errRead s cur fields = Some r).
Proof.
  induction fuel as [|fuel [IHp IHq]]; [split; intros; discriminate |].
  split.
  - intros line errRead s fields r H.
    rewrite parseField_S in H. rewrite parseField_S.
    destruct (negb (bytes.starts_with QUOTE line)); [| now apply IHq].
    destruct (bytes.IndexByte line COMMA); [now apply IHp | exact H].
  - intros line errRead s cur fields r H.
    rewrite quotedField_S in H. rewrite quotedField_S.
    destruct (bytes.IndexByte line QUOTE) as [i|]; cbv zeta in *.
    + destruct (bytes.starts_with QUOTE _); [now apply IHq |].
      destruct (bytes.starts_with COMMA _); [now apply IHp |].
      destruct (_ =? _); [exact H | now apply IHq].
    + destruct (0 <? String.length line); [| exact H].
      destruct errRead; [exact H |].
      destruct (csv.readLine s) as [[line' err'] s']. now apply IHq.
Qed.

Lemma parseField_fuel_le (fuel fuel' : nat) line errRead s fields r :
  fuel <= fuel' ->
  csv.parseField fuel line errRead s fields = Some r ->
  csv.parseField fuel' line errRead s fields = Some r.
Proof.
  induction 1 as [|fuel' _ IH]; [trivial |].
  intros H. apply (proj1 (parse_more_fuel fuel')). auto.
Qed.

Lemma quotedField_fuel_le (fuel fuel' : nat) line errRead s cur fields r :
  fuel <= fuel' ->
  csv.quotedField fuel line errRead s cur fields = Some r ->
  csv.quotedField fuel' line errRead s cur fields = Some r.
Proof.
  induction 1 as [|fuel' _ IH]; [trivial |].
  intros H. apply (proj2 (parse_more_fuel fuel')). auto.
Qed.

(** A stretch without quote is copied with the quote that follows it. *)
Lemma quotedField_chunk (p tail : string) fuel errRead s cur fields :
  bytes.mem QUOTE p = false ->
  csv.quotedField fuel (p +:+ String QUOTE tail) errRead s cur fields
  = csv.quotedField fuel (String QUOTE tail) errRead s (cur +:+ p) fields.
Proof.
  intros Hp. destruct fuel as [|fuel]; [reflexivity |].
  rewrite !quotedField_S.
  rewrite (IndexByte_first p tail QUOTE Hp), take_append.
  replace (String.length p + 1) with (S (String.length p)) by lia.
  rewrite drop_S_append.
  change (bytes.IndexByte (String QUOTE tail) QUOTE) with (Some 0).
  cbv beta iota zeta.
  change (bytes.take 0 (String QUOTE tail)) with ""%string.
  change (bytes.drop (0 + 1) (String QUOTE tail)) with tail.
  now rewrite append_empty_r.
Qed.

Lemma quoted_escape (f : string) :
  forall (p cur tail : string) errRead s fields r,
    bytes.mem QUOTE p = false ->
    quoted_to (String QUOTE tail) errRead s (cur +:+ p +:+ f) fields r ->
    quoted_to (p +:+ escape f +:+ String QUOTE tail) errRead s cur fields r.
Proof.
  induction f as [|c f IH]; intros p cur tail errRead s fields r Hp [fuel H].
  - exists fuel. cbn [escape]. rewrite append_nil, quotedField_chunk by exact Hp.
    now rewrite append_empty_r in H.
  - cbn [escape]. destruct (Ascii.eqb c QUOTE) eqn:Ec.
    + apply Ascii.eqb_eq in Ec. subst c.
      destruct (IH ""%string (cur +:+ p +:+ String QUOTE "") tail errRead s fields r
                   eq_refl) as [fuel' H'].
      { exists fuel. rewrite append_nil, !append_assoc. exact H. }
      exists (S fuel').
      rewrite !append_cons.
      rewrite quotedField_chunk by exact Hp.
      rewrite quotedField_S.
      change (bytes.IndexByte
                (String QUOTE (String QUOTE (escape f +:+ String QUOTE tail))) QUOTE)
        with (Some 0).
      cbv beta iota zeta.
      change (bytes.drop (0 + 1)
                (String QUOTE (String QUOTE (escape f +:+ String QUOTE tail))))
        with (String QUOTE (escape f +:+ String QUOTE tail)).
      cbn [bytes.starts_with]. rewrite (Ascii.eqb_refl QUOTE).
      change (bytes.take 0 (String QUOTE (String QUOTE (escape f +:+ String QUOTE tail))))
        with ""%string.
      change (bytes.drop 1 (String QUOTE (escape f +:+ String QUOTE tail)))
        with (escape f +:+ String QUOTE tail).
      rewrite append_empty_r. rewrite append_nil in H'.
      rewrite append_assoc. exact H'.
    + destruct (IH (p +:+ String c "") cur tail errRead s fields r) as [fuel' H'].
      { rewrite mem_append, Hp. cbn. now rewrite Ec. }
      { exists fuel. rewrite !append_assoc. exact H. }
      exists fuel'. rewrite !append_assoc in H'. exact H'.
Qed.

Lemma parse_to_at (F : nat) line errRead s fields r :
  parse_to line errRead s fields r ->
  String.length line + String.length (fst s) < F ->
  csv.parseField F line errRead s fields = Some r.
Proof.
  intros [fuel H] HF.
  destruct (Nat.le_ge_cases fuel F) as [Hle | Hge].
  - exact (parseField_fuel_le fuel F _ _ _ _ _ Hle H).
  - destruct (proj1 (parse_runs F) line errRead s fields HF) as [r' H'].
    rewrite H'. f_equal.
    pose proof (parseField_fuel_le F fuel _ _ _ _ _ Hge H') as H2.
    congruence.
Qed.

Lemma parse_of_quoted line errRead s fields r :
  bytes.starts_with QUOTE line = true ->
  quoted_to (bytes.drop 1 line) errRead s ""%string fields r ->
  parse_to line errRead s fields r.
Proof.
  intros Hq [fuel H]. exists (S fuel). rewrite parseField_S, Hq. exact H.
Qed.

Lemma parse_of_comma (f tail : string) errRead s fields r :
  bytes.starts_with QUOTE f = false ->
  bytes.mem COMMA f = false ->
  parse_to tail errRead s (fields ++ [f]) r ->
  parse_to (f +:+ String COMMA tail) errRead s fields r.
Proof.
  intros Hq Hc [fuel H]. exists (S fuel). rewrite parseField_S.
  assert (Hs : bytes.starts_with QUOTE (f +:+ String COMMA tail) = false)
    by (destruct f; [reflexivity | exact Hq]).
  rewrite Hs. cbn [negb].
  rewrite (IndexByte_first f tail COMMA Hc), take_append.
  replace (String.length f + 1) with (S (String.length f)) by lia.
  rewrite drop_S_append. exact H.
Qed.

Lemma mem_escape (c : ascii) (f : string) :
  Ascii.eqb QUOTE c = false -> bytes.mem c (escape f) = bytes.mem c f.
Proof.
  intros Hc. induction f as [|x f IH]; [reflexivity |].
  cbn [escape]. destruct (Ascii.eqb x QUOTE) eqn:Ex; cbn [bytes.mem]; rewrite IH.
  - apply Ascii.eqb_eq in Ex. subst x. rewrite Hc. reflexivity.
  - reflexivity.
Qed.

Lemma parse_last_plain (f : string) errRead s fields :
  plain_field f ->
  parse_to (f +:+ String LF "") errRead s fields (fields ++ [f], errRead, s).
Proof.
  intros (Hcomma & Hlf & Hq). exists 1. rewrite parseField_S.
  rewrite starts_with_append, Hq by reflexivity. cbn [negb].
  rewrite IndexByte_absent by (rewrite mem_append, Hcomma; reflexivity).
  unfold csv.lengthNL, bytes.ends_with.
  rewrite last_append_byte, (Ascii.eqb_refl LF), length_append.
  cbn [String.length].
  replace (String.length f + 1 - 1) with (String.length f) by lia.
  now rewrite take_append.
Qed.

Lemma quoted_close_last (f : string) errRead s fields :
  quoted_to (String QUOTE (String LF "")) errRead s f fields
            (fields ++ [f], errRead, s).
Proof.
  exists 1. rewrite quotedField_S.
  change (bytes.IndexByte (String QUOTE (String LF "")) QUOTE) with (Some 0).
  cbv beta iota zeta.
  change (bytes.take 0 (String QUOTE (String LF ""))) with ""%string.
  change (bytes.drop (0 + 1) (String QUOTE (String LF ""))) with (String LF "").
  rewrite append_empty_r. reflexivity.
Qed.

Lemma quoted_close_comma (f tail : string) errRead s fields r :
  parse_to tail errRead s (fields ++ [f]) r ->
  quoted_to (String QUOTE (String COMMA tail)) errRead s f fields r.
Proof.
  intros [fuel H]. exists (S fuel). rewrite quotedField_S.
  change (bytes.IndexByte (String QUOTE (String COMMA tail)) QUOTE) with (Some 0).
  cbv beta iota zeta.
  change (bytes.take 0 (String QUOTE (String COMMA tail))) with ""%string.
  change (bytes.drop (0 + 1) (String QUOTE (String COMMA tail)))
    with (String COMMA tail).
  rewrite append_empty_r. exact H.
Qed.

(** One cell at the head of a line, followed by [tail]: the newline that
    ends the line, or a comma and the other cells. *)
Lemma parse_cell (c : cell) (tail : string) errRead s fields r :
  cell_ok c ->
  (tail = String LF "" /\ r = (fields ++ [cell_value c], errRead, s)) \/
  (exists rest, tail = String COMMA rest /\
                parse_to rest errRead s (fields ++ [cell_value c]) r) ->
  parse_to (cell_text c +:+ tail) errRead s fields r.
Proof.
  intros Hok Htail. destruct c as [f | f]; cbn [cell_text cell_value] in *.
  - destruct Htail as [[-> ->] | (rest & -> & H)].
    + now apply parse_last_plain.
    + destruct Hok as (Hcomma & _ & Hq). now apply parse_of_comma.
  - apply parse_of_quoted; [reflexivity |].
    rewrite append_cons, append_assoc.
    change (bytes.drop 1 (String QUOTE (escape f +:+ String QUOTE "" +:+ tail)))
      with (""%string +:+ escape f +:+ String QUOTE tail).
    apply quoted_escape; [reflexivity |]. rewrite !append_nil.
    destruct Htail as [[-> ->] | (rest & -> & H)].
    + apply quoted_close_last.
    + now apply quoted_close_comma.
Qed.

Lemma parse_cells (cells : list cell) :
  cells <> [] ->
  Forall cell_ok cells ->
  forall acc errRead s,
    parse_to (bytes.Join (map cell_text cells) "," +:+ String LF "") errRead s acc
             (acc ++ map cell_value cells, errRead, s).
Proof.
  induction cells as [|c [|c' t] IH]; [congruence | |];
    intros _ Hall acc errRead s.
  - apply Forall_cons in Hall as [Hc _].
    cbn [map bytes.Join]. apply parse_cell; [exact Hc | left; split; reflexivity].
  - apply Forall_cons in Hall as [Hc Hall].
    change (map cell_text (c :: c' :: t))
      with (cell_text c :: cell_text c' :: map cell_text t).
    rewrite Join_cons2, !append_assoc.
    apply parse_cell; [exact Hc | right].
    eexists. split; [reflexivity |].
    change (map cell_value (c :: c' :: t))
      with ([cell_value c] ++ map cell_value (c' :: t)).
    rewrite app_assoc. apply (IH ltac:(discriminate) Hall).
Qed.

Lemma Join_no_LF (cells : list cell) :
  Forall cell_ok cells ->
  bytes.mem LF (bytes.Join (map cell_text cells) ",") = false.
Proof.
  assert (Hcell : forall c, cell_ok c -> bytes.mem LF (cell_text c) = false).
  { intros [f | f]; cbn [cell_ok cell_text].
    - now intros (_ & Hlf & _).
    - intros Hlf. cbn [bytes.mem]. rewrite mem_append, mem_escape, Hlf by reflexivity.
      reflexivity. }
  induction cells as [|c [|c' t] IH]; intros Hall; [reflexivity | |].
  - apply Forall_cons in Hall as [Hc _]. now apply Hcell.
  - apply Forall_cons in Hall as [Hc Hall].
    change (map cell_text (c :: c' :: t))
      with (cell_text c :: cell_text c' :: map cell_text t).
    rewrite Join_cons2, !mem_append, (Hcell c Hc).
    specialize (IH Hall). cbn [map] in IH. rewrite IH. reflexivity.
Qed.

Lemma get_at_length (a t : string) (c : ascii) :
  String.get (String.length a) (a +:+ String c t) = Some c.
Proof. induction a as [|x a IH]; [reflexivity | exact IH]. Qed.

Lemma crlf_to_lf_crlf (line : string) :
  csv.crlf_to_lf (line +:+ String CR (String LF "")) = line +:+ String LF "".
Proof.
  unfold csv.crlf_to_lf. cbv zeta. rewrite length_append. cbn [String.length].
  replace (String.length line + 2 - 2) with (String.length line) by lia.
  replace (String.length line + 2 - 1) with (String.length (line +:+ String CR ""))
    by (rewrite length_append; simpl; lia).
  rewrite get_at_length.
  assert (H2 : String.get (String.length (line +:+ String CR ""))
                          (line +:+ String CR (String LF "")) = Some LF).
  { rewrite <- (get_at_length (line +:+ String CR "") "" LF).
    f_equal. now rewrite append_assoc. }
  rewrite H2, take_append.
  replace (2 <=? String.length line + 2) with true
    by (symmetry; apply Nat.leb_le; lia).
  rewrite !bool_decide_eq_true_2 by reflexivity. reflexivity.
Qed.

Lemma readLine_crlf (line rest : string) (e : option error) :
  bytes.mem LF line = false ->
  csv.readLine (line +:+ String CR (String LF rest), e)
  = (line +:+ String LF "", None, (rest, e)).
Proof.
  intros Hlf. unfold csv.readLine.
  replace (line +:+ String CR (String LF rest))
    with ((line +:+ String CR "") +:+ String LF rest)
    by (now rewrite append_assoc).
  rewrite IndexByte_first by (rewrite mem_append, Hlf; reflexivity).
  rewrite take_S_append, drop_S_append.
  cbn [is_EOF]. rewrite andb_false_r.
  rewrite append_assoc. cbn [String.append].
  now rewrite crlf_to_lf_crlf.
Qed.

Lemma readRecord_header_line (cells : list cell) (eol rest : string)
    (e : option error) :
  Forall cell_ok cells ->
  bytes.Join (map cell_text cells) "," <> ""%string ->
  line_end (bytes.Join (map cell_text cells) ",") eol ->
  csv.readRecord (bytes.Join (map cell_text cells) "," +:+ eol +:+ rest, e)
  = (map cell_value cells, None, (rest, e)).
Proof.
  intros Hall Hne Heol.
  unfold csv.readRecord, csv.readRecord_opt.
  cbn [csv.firstLine fst].
  set (line := bytes.Join (map cell_text cells) "," +:+ String LF "").
  assert (Hread : csv.readLine
                    (bytes.Join (map cell_text cells) "," +:+ eol +:+ rest, e)
                  = (line, None, (rest, e))).
  { destruct Heol as [[-> Hcr] | ->].
    - apply readLine_plain; [now apply Join_no_LF | exact Hcr].
    - apply readLine_crlf. now apply Join_no_LF. }
  rewrite Hread.
  assert (Hlen : (String.length line =? csv.lengthNL line) = false).
  { apply Nat.eqb_neq. unfold line. rewrite length_append.
    unfold csv.lengthNL, bytes.ends_with.
    rewrite last_append_byte, (Ascii.eqb_refl LF). cbn [String.length].
    destruct (bytes.Join (map cell_text cells) ","); [congruence | simpl; lia]. }
  rewrite Hlen. cbn [is_EOF fst].
  rewrite (parse_to_at _ line None (rest, e) [] (map cell_value cells, None, (rest, e))).
  - reflexivity.
  - apply (parse_cells cells); [| exact Hall]. intros ->. apply Hne. reflexivity.
  - cbn [fst]. lia.
Qed.

(** After the byte-order mark [csvHeader] is [csv.Reader.Read]: whatever
    the text is, the header, the error and the position are those of the
    first record of the text. *)
Lemma csvHeader_after_bom (h : nat) (s : Stream) (σ : State) (text : string) :
  streams σ !! h = Some s ->
  s_nilsrc s = false ->
  s_closed s = false ->
  s_data s = BOM +:+ text ->
  csvHeader (Some h) σ
  = (Returns (match snd (fst (csv.readRecord (text, s_end s))) with
              | Some e => ([], None, Some e)
              | None => (fst (fst (csv.readRecord (text, s_end s))), Some h, None)
              end),
     upd h (with_data s (fst (snd (csv.readRecord (text, s_end s))))) σ).
Proof.
  intros Hh Hnil Hopen Hdata.
  assert (Hlt : h < length (streams σ)) by (eapply lookup_lt_Some; eauto).
  assert (Hr : readable s = (BOM +:+ text, s_end s)).
  { unfold readable. now rewrite Hopen, Hdata. }
  set (s1 := with_data s text).
  assert (Hr1 : readable s1 = (text, s_end s)).
  { unfold readable, s1. cbn. now rewrite Hopen. }
  unfold csvHeader. unfold_M.
  rewrite (Peek_at h s σ 3 Hh Hnil), Hr. cbn [fst snd].
  change (3 <=? String.length (BOM +:+ text)) with true.
  cbv beta iota.
  change (is_BOM (bytes.take 3 (BOM +:+ text))) with true.
  cbv beta iota.
  rewrite (Discard_at h s σ 3 Hh Hnil), Hr. cbn [fst].
  change (bytes.drop 3 (BOM +:+ text)) with text.
  assert (Hadv : advance s text = s1) by (unfold advance; now rewrite Hopen).
  rewrite Hadv.
  rewrite (Read_at h s1 (upd h s1 σ) (lookup_upd h s1 σ Hlt) Hnil), Hr1.
  assert (Hfin : forall d, upd h (advance s1 d) (upd h s1 σ) = upd h (with_data s d) σ).
  { intros d. unfold upd, advance. cbn [streams trace s_closed s1 with_data].
    now rewrite Hopen, list_insert_insert_eq. }
  rewrite Hfin.
  destruct (csv.readRecord (text, s_end s)) as [[record [er|]] [d e]]; reflexivity.
Qed.

(** C1.  On an open stream whose content is the byte-order mark, one
    header line and the rows, [csvHeader] returns the values of the cells of
    that line as the header, no error, and the reader it was given, whose
    unread bytes are exactly the rows after the header line.  The cells are
    written as they are or between quotes; the line is not empty and ends
    with a newline or with a carriage return and a newline. *)
Theorem csvHeader_bom (h : nat) (s : Stream) (σ : State) (cells : list cell)
    (eol rest : string) :
  streams σ !! h = Some s ->
  s_nilsrc s = false ->
  s_closed s = false ->
  Forall cell_ok cells ->
  bytes.Join (map cell_text cells) "," <> ""%string ->
  line_end (bytes.Join (map cell_text cells) ",") eol ->
  s_data s = BOM +:+ bytes.Join (map cell_text cells) "," +:+ eol +:+ rest ->
  csvHeader (Some h) σ
  = (Returns (map cell_value cells, Some h, None), upd h (with_data s rest) σ).
Proof.
  intros Hh Hnil Hopen Hall Hne Heol Hdata.
  rewrite (csvHeader_after_bom h s σ _ Hh Hnil Hopen Hdata).
  now rewrite (readRecord_header_line cells eol rest (s_end s) Hall Hne Heol).
Qed.

Lemma csvHeader_bom_witness :
  csvHeader (Some 0)
    (one_stream (BOM +:+ "a,b,c" +:+ String LF ("1,2,3" +:+ String LF "")))
  = (Returns (["a"; "b"; "c"]%string, Some 0, None),
     one_stream ("1,2,3" +:+ String LF "")).
Proof.
  apply (csvHeader_bom 0
           (plain_stream (BOM +:+ "a,b,c" +:+ String LF ("1,2,3" +:+ String LF "")))
           (one_stream (BOM +:+ "a,b,c" +:+ String LF ("1,2,3" +:+ String LF "")))
           [Plain "a"; Plain "b"; Plain "c"] (String LF "")
           ("1,2,3" +:+ String LF "")).
  - reflexivity.
  - reflexivity.
  - reflexivity.
  - repeat constructor.
  - discriminate.
  - left. split; reflexivity.
  - reflexivity.
Defined.

(** A header line with a cell between quotes, ended by a carriage return
    and a newline. *)
Example csvHeader_quoted_cell :
  csvHeader (Some 0)
    (one_stream (BOM +:+ String QUOTE ("x,y" +:+ String QUOTE (",z"
                   +:+ String CR (String LF "1,2")))))
  = (Returns (["x,y"; "z"]%string, Some 0, None), one_stream "1,2").
Proof. vm_compute. reflexivity. Qed.

(** * Further properties *)

Section KeepsTrace.
Context {A B : Type}.

Lemma keeps_trace_ret (a : A) : keeps_trace (mret a : M A).
Proof. intros σ. reflexivity. Qed.

Lemma keeps_trace_panic (msg : string) : keeps_trace (panic msg : M A).
Proof. intros σ. reflexivity. Qed.

Lemma keeps_trace_bind (m : M A) (k : A -> M B) :
  keeps_trace m -> (forall a, keeps_trace (k a)) -> keeps_trace (m ≫= k).
Proof.
  intros Hm Hk σ. unfold_M. specialize (Hm σ).
  destruct (m σ) as [[a|msg|c] σ1]; simpl in *; try exact Hm.
  rewrite (Hk a σ1). exact Hm.
Qed.
End KeepsTrace.

Lemma keeps_trace_alloc (s : Stream) : keeps_trace (alloc s).
Proof. intros σ. reflexivity. Qed.

Lemma keeps_trace_set_stream (h : nat) (s : Stream) : keeps_trace (set_stream h s).
Proof. intros σ. reflexivity. Qed.

Lemma keeps_trace_deref (r : Reader) : keeps_trace (deref r).
Proof.
  intros σ. unfold deref. destruct r as [h|]; [|reflexivity].
  destruct (streams σ !! h); reflexivity.
Qed.

Lemma keeps_trace_reading (r : Reader) : keeps_trace (reading r).
Proof.
  unfold reading. apply keeps_trace_bind; [apply keeps_trace_deref |].
  intros [h s]. destruct (s_nilsrc s); [apply keeps_trace_panic | apply keeps_trace_ret].
Qed.

Lemma keeps_trace_ReadAll (r : Reader) : keeps_trace (io.ReadAll r).
Proof.
  unfold io.ReadAll. apply keeps_trace_bind; [apply keeps_trace_reading |].
  intros [h s]. destruct (readable s) as [d e].
  apply keeps_trace_bind; [apply keeps_trace_set_stream | intros _; apply keeps_trace_ret].
Qed.

Lemma keeps_trace_close_chain (fuel : nat) (c : Reader) :
  keeps_trace (io.close_chain fuel c).
Proof.
  revert c; induction fuel as [|fuel IH]; intros c; simpl;
    (apply keeps_trace_bind; [apply keeps_trace_deref |]); intros [h s];
    destruct (s_chain s);
    repeat first [ apply keeps_trace_ret | apply keeps_trace_panic
                 | apply keeps_trace_set_stream
                 | apply IH | apply keeps_trace_bind | intros ? ].
Qed.

Lemma keeps_trace_Close (c : Reader) : keeps_trace (io.Close c).
Proof. intros σ. unfold io.Close. apply keeps_trace_close_chain. Qed.

Lemma keeps_trace_convert (env : Env) (label : string) (r : Reader) :
  keeps_trace (convert env label r).
Proof.
  unfold convert. destruct (charset_Lookup env label) as [decode|];
    [| apply keeps_trace_ret].
  destruct r as [h|].
  - apply keeps_trace_bind; [apply keeps_trace_deref |]. intros [h' st].
    apply keeps_trace_bind; [apply keeps_trace_alloc | intros nr; apply keeps_trace_ret].
  - apply keeps_trace_bind; [apply keeps_trace_alloc | intros nr; apply keeps_trace_ret].
Qed.

Lemma keeps_trace_unzip (env : Env) (reader : Reader) : keeps_trace (unzip env reader).
Proof.
  unfold unzip, io.Copy. apply keeps_trace_bind; [apply keeps_trace_ReadAll |].
  intros [b [e|]]; [apply keeps_trace_ret |].
  apply keeps_trace_bind; [apply keeps_trace_Close | intros _].
  destruct (zip_NewReader env b) as [e | [|f rest]]; try apply keeps_trace_ret.
  destruct (zf_Open f) as [e | [content ending]]; [apply keeps_trace_ret |].
  apply keeps_trace_bind; [apply keeps_trace_alloc | intros rc; apply keeps_trace_ret].
Qed.

Lemma keeps_trace_tweak (env : Env) (t : Tweak) (reader : Reader) :
  keeps_trace (tweak env t reader).
Proof.
  unfold tweak. repeat case_bool_decide.
  - apply keeps_trace_bind; [apply keeps_trace_unzip |].
    intros [r [e|]]; apply keeps_trace_ret.
  - apply keeps_trace_bind; [apply keeps_trace_convert |].
    intros [r [e|]]; apply keeps_trace_ret.
  - apply keeps_trace_ret.
Qed.

(** X2.  A chain of tweaks does nothing to the outside: whatever the tweaks
    and the stream, and however the chain ends, the trace is the one it
    started with (no HTTP request, no BigQuery call, no answer). *)
Theorem tweak_all_keeps_trace (env : Env) (ts : list Tweak) (reader : Reader) :
  keeps_trace (tweak_all env ts reader).
Proof.
  revert reader; induction ts as [|t ts IH]; intros reader; simpl.
  - apply keeps_trace_ret.
  - apply keeps_trace_bind; [apply keeps_trace_tweak |].
    intros [r [e|]]; [apply keeps_trace_ret | apply IH].
Qed.

(** X1.  The chain over [ts1 ++ ts2] is the chain over [ts1] followed, when
    that one ends without error, by the chain over [ts2] on the stream it
    returned; when [ts1] ends with an error, a panic or an exit, that is the
    end of the whole chain and [ts2] has no effect. *)
Theorem tweak_all_app (env : Env) (ts1 ts2 : list Tweak) (reader : Reader) (σ : State) :
  tweak_all env (ts1 ++ ts2) reader σ
  = match tweak_all env ts1 reader σ with
    | (Returns (r, None), σ1) => tweak_all env ts2 r σ1
    | other => other
    end.
Proof.
  revert reader σ; induction ts1 as [|t ts1 IH]; intros reader σ.
  - reflexivity.
  - cbn [app tweak_all]. unfold_M.
    destruct (tweak env t reader σ) as [[[r [e|]]|msg|c] σ1]; try reflexivity.
    apply IH.
Qed.

(** X3.  A "convert" tweak whose charset label is unknown (the label is the
    empty string when the argument is missing) fails with the error of the
    unsupported charset and leaves the state as it was: the stream is
    neither read nor closed. *)
Theorem tweak_convert_unsupported (env : Env) (t : Tweak) (reader : Reader) (σ : State) :
  t_Call t = "convert"%string ->
  charset_Lookup env (default ""%string (t_Args t !! "charset"%string)) = None ->
  tweak env t reader σ
  = (Returns (None, Some (ErrUnsupportedCharset
                            (default ""%string (t_Args t !! "charset"%string)))), σ).
Proof.
  intros Hc Hl. unfold tweak, convert. rewrite Hc, Hl. reflexivity.
Qed.

Lemma close_chain_own (fuel h : nat) (s : Stream) (σ : State) :
  streams σ !! h = Some s ->
  s_chain s = Own ->
  io.close_chain fuel (Some h) σ = (Returns None, upd h (close_mark s) σ).
Proof.
  intros Hh Hc. destruct s as [d e c n ch]; simpl in Hc; subst ch.
  destruct fuel; simpl; unfold deref; unfold_M; rewrite Hh; reflexivity.
Qed.

(** X4.  [convert] with a known label on a stream returns a new reader over
    the decoded bytes, and closing that reader closes the stream it was
    made from ([ChainedCloser.Close]). *)
Theorem convert_then_Close (env : Env) (label : string) (decode : string -> string)
    (h : nat) (s : Stream) (σ : State) :
  charset_Lookup env label = Some decode ->
  streams σ !! h = Some s ->
  s_chain s = Own ->
  let nr := length (streams σ) in
  let σ1 := {| streams := streams σ ++ [wrapper decode h s]; trace := trace σ |} in
  convert env label (Some h) σ = (Returns (Some nr, None), σ1) /\
  io.Close (Some nr) σ1
  = (Returns None,
     {| streams := <[h := close_mark s]> (streams σ) ++ [close_mark (wrapper decode h s)];
        trace := trace σ |}).
Proof.
  intros Hl Hh Hc nr σ1.
  assert (Hlt : h < length (streams σ)) by (eapply lookup_lt_Some; eauto).
  split.
  - unfold convert, deref, alloc. rewrite Hl. unfold_M. rewrite Hh. reflexivity.
  - unfold io.Close. subst σ1. cbn [streams]. rewrite length_app. cbn [length].
    replace (length (streams σ) + 1) with (S nr) by (subst nr; lia).
    cbn [io.close_chain]. unfold deref at 1. unfold_M. cbn [streams].
    rewrite lookup_app_r by (subst nr; lia).
    replace (nr - length (streams σ)) with 0 by (subst nr; lia).
    cbn [lookup list_lookup wrapper s_chain].
    rewrite (close_chain_own nr h s _).
    + unfold set_stream, upd. cbn [streams trace fst snd].
      f_equal. f_equal.
      rewrite insert_app_l by exact Hlt.
      rewrite insert_app_r_alt by (rewrite length_insert; subst nr; lia).
      rewrite length_insert.
      replace (nr - length (streams σ)) with 0 by (subst nr; lia).
      reflexivity.
    + cbn [streams]. rewrite lookup_app_l by exact Hlt. exact Hh.
    + exact Hc.
Qed.

(** X5.  [convert] with a known label on the nil reader does not fail: it
    returns a wrapper and a nil error.  The first use of the wrapper
    panics: [load], [unzip] and [Close] all end with a nil dereference. *)
Theorem convert_nil_defers_the_panic (env : Env) (label : string)
    (decode : string -> string) (σ : State) (p d t : string) :
  charset_Lookup env label = Some decode ->
  let nr := length (streams σ) in
  let σ1 := {| streams := streams σ ++ [nil_wrapper]; trace := trace σ |} in
  convert env label None σ = (Returns (Some nr, None), σ1) /\
  load env p d t (Some nr) σ1 = (Panics nil_dereference, σ1) /\
  unzip env (Some nr) σ1 = (Panics nil_dereference, σ1) /\
  io.Close (Some nr) σ1 = (Panics nil_dereference, σ1).
Proof.
  intros Hl nr σ1.
  assert (Hnr : streams σ1 !! nr = Some nil_wrapper).
  { subst σ1 nr. cbn [streams]. rewrite lookup_app_r by lia.
    now rewrite Nat.sub_diag. }
  split; [| split; [| split]].
  - unfold convert. rewrite Hl. reflexivity.
  - unfold load, csvHeader, bufio.Peek, reading, deref. unfold_M.
    rewrite Hnr. reflexivity.
  - unfold unzip, io.Copy, io.ReadAll, reading, deref. unfold_M.
    rewrite Hnr. reflexivity.
  - unfold io.Close.
    replace (length (streams σ1)) with (S nr)
      by (subst σ1 nr; cbn [streams]; rewrite length_app; simpl; lia).
    cbn [io.close_chain]. unfold deref at 1. unfold_M.
    rewrite Hnr. cbn [s_chain nil_wrapper].
    destruct nr; reflexivity.
Qed.

(** X6.  When reading the input fails, [unzip] returns the Read error and
    leaves the input open: the early return comes before [reader.Close()]. *)
Theorem unzip_read_error (env : Env) (h : nat) (s : Stream) (σ : State) (e : error) :
  streams σ !! h = Some s ->
  s_nilsrc s = false ->
  s_closed s = false ->
  s_end s = Some e ->
  e <> io_EOF ->
  unzip env (Some h) σ = (Returns (None, Some e), upd h (with_data s "") σ).
Proof.
  intros Hh Hnil Hopen Hend Hne.
  unfold unzip, io.Copy. unfold_M.
  rewrite (ReadAll_at h s σ Hh Hnil).
  unfold readable, advance. rewrite Hopen, Hend. cbn [fst snd end_error].
  destruct e; try congruence; reflexivity.
Qed.

(** X7.  When [zip.NewReader] rejects the bytes, [unzip] returns its error;
    the input has been read to its end and closed. *)
Theorem unzip_bad_archive (env : Env) (h : nat) (s : Stream) (σ : State) (e : error) :
  streams σ !! h = Some s ->
  s_nilsrc s = false ->
  s_closed s = false ->
  s_chain s = Own ->
  is_EOF (Some (end_error (s_end s))) = true ->
  zip_NewReader env (s_data s) = inl e ->
  unzip env (Some h) σ
  = (Returns (None, Some e), upd h (close_mark (with_data s "")) σ).
Proof.
  intros Hh Hnil Hopen Hown Hend Hzip.
  assert (Hlt : h < length (streams σ)) by (eapply lookup_lt_Some; eauto).
  unfold unzip, io.Copy. unfold_M.
  rewrite (ReadAll_at h s σ Hh Hnil).
  unfold readable, advance. rewrite Hopen. cbn [fst snd]. rewrite Hend.
  rewrite (Close_own h (with_data s "") (upd h (with_data s "") σ)
             (lookup_upd h _ σ Hlt) Hown).
  rewrite Hzip. unfold upd. cbn [streams trace].
  now rewrite list_insert_insert_eq.
Qed.

(** X8.  [request] sends one HTTP request, unless the request cannot be built,
    in which case it sends none; the Content-Type header is set exactly
    when the body has an entry. *)
Theorem request_trace (env : Env) (method url : string) (body : gmap string string)
    (σ : State) :
  trace (snd (request env method url body σ))
  = trace σ ++ match http_NewRequest env method url with
               | Some _ => []
               | None => [EvHTTP method url body (bool_decide (body <> ∅))]
               end.
Proof.
  assert (Hct : negb (size body =? 0) = bool_decide (body <> ∅)).
  { destruct (size body =? 0) eqn:E.
    - apply Nat.eqb_eq, map_size_empty_iff in E.
      now rewrite bool_decide_eq_false_2 by tauto.
    - apply Nat.eqb_neq in E. rewrite bool_decide_eq_true_2; [reflexivity |].
      intros ->. now rewrite map_size_empty in E. }
  pose proof (request_cases env method url body σ) as H.
  destruct (http_NewRequest env method url) as [er|].
  { rewrite H. simpl. now rewrite app_nil_r. }
  destruct (http_Do env method url body) as [er | [[code content] ending]];
    simpl in H; rewrite H; simpl; now rewrite Hct.
Qed.

(** X9.  On a status code above 299 [request] returns the status error and no
    reader; the body of the response is in the state, open: nothing closes
    it. *)
Theorem request_status_error_leaves_body_open (env : Env) (method url : string)
    (body : gmap string string) (σ : State) (code : Z) (content : string)
    (ending : option error) :
  http_NewRequest env method url = None ->
  http_Do env method url body = inr (code, content, ending) ->
  (299 < code)%Z ->
  fst (request env method url body σ) = Returns (None, Some (ErrStatus code body)) /\
  streams (snd (request env method url body σ))
  = streams σ ++ [{| s_data := content; s_end := ending; s_closed := false;
                     s_nilsrc := false; s_chain := Own |}].
Proof.
  intros Hnew Hdo Hcode.
  pose proof (request_cases env method url body σ) as H.
  rewrite Hnew, Hdo in H. simpl in H. rewrite H.
  apply Z.ltb_lt in Hcode. rewrite Hcode. split; reflexivity.
Qed.

Lemma formatMap_fmap (templates : gmap string string) (pattern : Regexp)
    (content : string) :
  formatMap templates pattern content = expand_all pattern content <$> templates.
Proof.
  unfold formatMap.
  apply (map_fold_weak_ind
           (fun (r m : gmap string string) => r = expand_all pattern content <$> m)).
  - now rewrite fmap_empty.
  - intros key template m r Hfresh ->. now rewrite fmap_insert.
Qed.

Lemma formatMap_over_acc (pattern : Regexp) (content : string)
    (keys : list (string * string)) :
  NoDup keys.*1 ->
  forall acc : gmap string string,
    foldl (fun m kt => <[kt.1 := expand_all pattern content kt.2]> m) acc keys
    = (expand_all pattern content <$> list_to_map keys) ∪ acc.
Proof.
  induction keys as [|[k t] keys IH]; intros Hnd acc.
  - cbn. now rewrite fmap_empty, (left_id_L ∅ (∪)).
  - cbn [fmap list_fmap fst] in Hnd. apply NoDup_cons in Hnd as [Hk Hnd].
    cbn [foldl list_to_map foldr fst snd]. rewrite (IH Hnd).
    rewrite fmap_insert. rewrite <- insert_union_l.
    rewrite insert_union_r; [reflexivity |].
    rewrite lookup_fmap. apply fmap_None.
    now apply not_elem_of_list_to_map_1.
Qed.

(** X11.  The result of [formatMap] does not depend on the order in which
    [range] visits the templates: the loop run over the entries in any
    order gives the same map. *)
Theorem formatMap_any_order (templates : gmap string string) (pattern : Regexp)
    (content : string) (keys : list (string * string)) :
  NoDup keys.*1 ->
  list_to_map keys = templates ->
  formatMap_over keys pattern content = formatMap templates pattern content.
Proof.
  intros Hnd <-. unfold formatMap_over.
  rewrite (formatMap_over_acc pattern content keys Hnd ∅).
  now rewrite (right_id_L ∅ (∪)), formatMap_fmap.
Qed.

Lemma formatMap_any_order_witness :
  formatMap_over [("b", "$0"); ("a", "x")]%string (byte_pattern "a") "banana"
  = formatMap {[ "a" := "x"; "b" := "$0" ]}%string (byte_pattern "a") "banana".
Proof.
  apply formatMap_any_order.
  - cbn. apply NoDup_cons. split; [| apply NoDup_singleton].
    intros H%list_elem_of_singleton. discriminate H.
  - vm_compute. reflexivity.
Defined.

(** X10.  When the pre-extraction request succeeds, its body is read to the
    end and the pattern compiles, [preExtract] returns the extraction with
    the method and url it had and the body [formatMap] makes of the old body
    and the response text, which has the same names; one request was sent
    and the response body is closed. *)
Theorem preExtract_success (env : Env) (p : PreExtraction) (e : Extraction)
    (σ : State) (code : Z) (content : string) (ending : option error)
    (pattern : Regexp) :
  p_Method p <> ""%string \/ p_Url p <> ""%string ->
  http_NewRequest env (p_Method p) (p_Url p) = None ->
  http_Do env (p_Method p) (p_Url p) (p_Body p) = inr (code, content, ending) ->
  (code <= 299)%Z ->
  is_EOF (Some (end_error ending)) = true ->
  regexp_Compile env (p_Pattern p) = inr pattern ->
  let e' := {| e_Method := e_Method e; e_Url := e_Url e;
               e_Body := formatMap (e_Body e) pattern content |} in
  preExtract env p e σ
  = (Returns (e', None),
     {| streams := streams σ ++
          [{| s_data := ""; s_end := ending; s_closed := true; s_nilsrc := false;
              s_chain := Own |}];
        trace := trace σ ++
          [EvHTTP (p_Method p) (p_Url p) (p_Body p) (negb (size (p_Body p) =? 0))] |})
  /\ dom (e_Body e') = dom (e_Body e).
Proof.
  intros Hne Hnew Hdo Hcode Hend Hre e'.
  split; [| subst e'; cbn [e_Body]; rewrite formatMap_fmap; apply dom_fmap_L].
  unfold preExtract.
  destruct (bool_decide (p_Method p = ""%string) && bool_decide (p_Url p = ""%string)) eqn:E.
  { apply andb_true_iff in E as [E1 E2].
    apply bool_decide_eq_true in E1, E2. tauto. }
  pose proof (request_cases env (p_Method p) (p_Url p) (p_Body p) σ) as Hreq.
  rewrite Hnew, Hdo in Hreq. simpl in Hreq.
  assert (Hlt : (299 <? code)%Z = false) by (apply Z.ltb_ge; lia).
  rewrite Hlt in Hreq.
  unfold_M. rewrite Hreq. clear Hreq.
  unfold defer.
  erewrite ReadAll_at; [| simpl; apply list_lookup_middle; reflexivity | reflexivity].
  cbn [readable s_closed s_data s_end fst snd]. rewrite Hend.
  unfold MustCompile. rewrite Hre. unfold_M.
  match goal with
  | |- context [io.Close (Some ?h) (upd ?h ?s ?σ0)] =>
      rewrite (Close_own h s (upd h s σ0))
  end.
  - unfold upd, advance, close_mark, with_data. cbn [streams trace s_closed s_data s_end s_nilsrc s_chain].
    rewrite list_insert_insert_eq.
    rewrite insert_app_r_alt by lia. rewrite Nat.sub_diag. reflexivity.
  - apply lookup_upd. simpl. rewrite length_app. simpl. lia.
  - reflexivity.
Qed.

Lemma csvHeader_unmarked (h : nat) (s : Stream) (σ : State) :
  streams σ !! h = Some s ->
  s_nilsrc s = false ->
  s_closed s = false ->
  3 <= String.length (s_data s) ->
  is_BOM (bytes.take 3 (s_data s)) = false ->
  csvHeader (Some h) σ
  = (Returns (match snd (fst (csv.readRecord (s_data s, s_end s))) with
              | Some e => ([], None, Some e)
              | None => (fst (fst (csv.readRecord (s_data s, s_end s))), Some h, None)
              end),
     upd h (with_data s (fst (snd (csv.readRecord (s_data s, s_end s))))) σ).
Proof.
  intros Hh Hnil Hopen Hlen Hbom.
  assert (Hr : readable s = (s_data s, s_end s)).
  { unfold readable. now rewrite Hopen. }
  unfold csvHeader. unfold_M.
  rewrite (Peek_at h s σ 3 Hh Hnil), Hr. cbn [fst snd].
  replace (3 <=? String.length (s_data s)) with true
    by (symmetry; now apply Nat.leb_le).
  cbv beta iota. rewrite Hbom.
  rewrite (Read_at h s σ Hh Hnil), Hr.
  unfold advance. rewrite Hopen.
  destruct (csv.readRecord (s_data s, s_end s)) as [[record [er|]] [d e]]; reflexivity.
Qed.

(** X12.  Without a byte-order mark nothing is discarded: on an open stream
    of at least 3 bytes that starts with the header line, [csvHeader]
    returns the cells of that line and leaves exactly the rows unread. *)
Theorem csvHeader_without_bom (h : nat) (s : Stream) (σ : State) (cells : list cell)
    (eol rest : string) :
  streams σ !! h = Some s ->
  s_nilsrc s = false ->
  s_closed s = false ->
  Forall cell_ok cells ->
  bytes.Join (map cell_text cells) "," <> ""%string ->
  line_end (bytes.Join (map cell_text cells) ",") eol ->
  s_data s = bytes.Join (map cell_text cells) "," +:+ eol +:+ rest ->
  3 <= String.length (s_data s) ->
  is_BOM (bytes.take 3 (s_data s)) = false ->
  csvHeader (Some h) σ
  = (Returns (map cell_value cells, Some h, None), upd h (with_data s rest) σ).
Proof.
  intros Hh Hnil Hopen Hall Hne Heol Hdata Hlen Hbom.
  rewrite (csvHeader_unmarked h s σ Hh Hnil Hopen Hlen Hbom), Hdata.
  now rewrite (readRecord_header_line cells eol rest (s_end s) Hall Hne Heol).
Qed.

Lemma csvHeader_without_bom_witness :
  csvHeader (Some 0) (one_stream ("a-b,c#1" +:+ String LF "1,2"))
  = (Returns (["a-b"; "c#1"]%string, Some 0, None), one_stream "1,2").
Proof.
  apply (csvHeader_without_bom 0 (plain_stream ("a-b,c#1" +:+ String LF "1,2"))
           (one_stream ("a-b,c#1" +:+ String LF "1,2"))
           [Plain "a-b"; Plain "c#1"] (String LF "") "1,2");
    try reflexivity.
  - repeat constructor.
  - discriminate.
  - left. split; reflexivity.
  - simpl. lia.
Defined.

Lemma readRecord_opt_skips_blank_line (d : string) (e : option error) :
  csv.readRecord_opt (String LF d, e) = csv.readRecord_opt (d, e).
Proof.
  unfold csv.readRecord_opt.
  cbn [fst String.length].
  change (csv.firstLine (S (S (String.length d))) (String LF d, e))
    with (let '(line, errRead, s') := csv.readLine (String LF d, e) in
          match errRead with
          | None =>
              if String.length line =? csv.lengthNL line
              then csv.firstLine (S (String.length d)) s'
              else Some (line, errRead, s')
          | Some _ => Some (line, errRead, s')
          end).
  pose proof (readLine_plain "" d e eq_refl eq_refl) as H.
  rewrite !append_nil in H. rewrite H. reflexivity.
Qed.

Lemma readRecord_skips_blank_line (d : string) (e : option error) :
  csv.readRecord (String LF d, e) = csv.readRecord (d, e).
Proof.
  unfold csv.readRecord. rewrite readRecord_opt_skips_blank_line.
  now destruct (readRecord_runs (d, e)) as [r ->].
Qed.

Lemma readRecord_skips_blank_lines (n : nat) (d : string) (e : option error) :
  csv.readRecord (blank_lines n +:+ d, e) = csv.readRecord (d, e).
Proof.
  induction n as [|n IH]; [reflexivity |].
  cbn [blank_lines]. rewrite append_cons, readRecord_skips_blank_line. exact IH.
Qed.

(** X13.  Empty lines before the header line are skipped: the header is the
    first line that is not empty. *)
Theorem csvHeader_skips_blank_lines (h : nat) (s : Stream) (σ : State) (n : nat)
    (cells : list cell) (eol rest : string) :
  streams σ !! h = Some s ->
  s_nilsrc s = false ->
  s_closed s = false ->
  Forall cell_ok cells ->
  bytes.Join (map cell_text cells) "," <> ""%string ->
  line_end (bytes.Join (map cell_text cells) ",") eol ->
  s_data s = BOM +:+ blank_lines n +:+ bytes.Join (map cell_text cells) ","
                 +:+ eol +:+ rest ->
  csvHeader (Some h) σ
  = (Returns (map cell_value cells, Some h, None), upd h (with_data s rest) σ).
Proof.
  intros Hh Hnil Hopen Hall Hne Heol Hdata.
  rewrite (csvHeader_after_bom h s σ _ Hh Hnil Hopen Hdata).
  rewrite readRecord_skips_blank_lines.
  now rewrite (readRecord_header_line cells eol rest (s_end s) Hall Hne Heol).
Qed.

(** X14.  A stream that holds the byte-order mark and empty lines only has no
    header: [csvHeader] returns the error that ends the stream ([io.EOF]
    for a stream that just ends), and everything has been read. *)
Theorem csvHeader_no_record (h : nat) (s : Stream) (σ : State) (n : nat) :
  streams σ !! h = Some s ->
  s_nilsrc s = false ->
  s_closed s = false ->
  s_data s = BOM +:+ blank_lines n ->
  csvHeader (Some h) σ
  = (Returns ([], None, Some (end_error (s_end s))), upd h (with_data s "") σ).
Proof.
  intros Hh Hnil Hopen Hdata.
  rewrite <- (append_empty_r (blank_lines n)) in Hdata.
  rewrite (csvHeader_after_bom h s σ _ Hh Hnil Hopen Hdata).
  rewrite readRecord_skips_blank_lines.
  unfold csv.readRecord, csv.readRecord_opt. cbn.
  destruct (s_end s) as [[]|]; reflexivity.
Qed.

Lemma advance_kind (s : Stream) (d : string) :
  s_chain (advance s d) = s_chain s /\ s_nilsrc (advance s d) = s_nilsrc s /\
  s_closed (advance s d) = s_closed s.
Proof. unfold advance. destruct (s_closed s) eqn:E; cbn; auto. Qed.

Lemma upd_same (h : nat) (s : Stream) (σ : State) :
  streams σ !! h = Some s -> upd h s σ = σ.
Proof.
  intros H. unfold upd. rewrite list_insert_id by exact H. now destruct σ.
Qed.

Lemma upd_upd (h : nat) (s s' : Stream) (σ : State) :
  upd h s' (upd h s σ) = upd h s' σ.
Proof. unfold upd. cbn. now rewrite list_insert_insert_eq. Qed.

Lemma csvHeader_returns (h : nat) (s : Stream) (σ : State) :
  streams σ !! h = Some s ->
  s_nilsrc s = false ->
  exists hdr br err s1,
    csvHeader (Some h) σ = (Returns (hdr, br, err), upd h s1 σ) /\
    s_chain s1 = s_chain s /\ s_nilsrc s1 = false /\
    (err = None -> br = Some h).
Proof.
  intros Hh Hnil.
  assert (Hlt : h < length (streams σ)) by (eapply lookup_lt_Some; eauto).
  unfold csvHeader. unfold_M.
  rewrite (Peek_at h s σ 3 Hh Hnil).
  destruct (3 <=? String.length (readable s).1).
  - cbv beta iota.
    assert (Hread : forall s0 σ0, streams σ0 !! h = Some s0 -> s_nilsrc s0 = false ->
              s_chain s0 = s_chain s -> upd h s0 σ = σ0 ->
              exists hdr br err s1,
                (let (o, σ') := csv.Read (Some h) σ0 in
                 match o with
                 | Returns a =>
                     (let '(header, err0) := a in
                      match err0 with
                      | Some e => fun σ1 => (Returns ([], None, Some e), σ1)
                      | None => fun σ1 => (Returns (header, Some h, None), σ1)
                      end) σ'
                 | Panics msg => (Panics msg, σ')
                 | Exits c => (Exits c, σ')
                 end) = (Returns (hdr, br, err), upd h s1 σ) /\
                s_chain s1 = s_chain s /\ s_nilsrc s1 = false /\
                (err = None -> br = Some h)).
    { intros s0 σ0 H0 Hn0 Hc0 <-.
      rewrite (Read_at h s0 _ H0 Hn0), upd_upd.
      destruct (advance_kind s0 (csv.readRecord (readable s0)).2.1) as (Hc & Hn & _).
      destruct (csv.readRecord (readable s0)).1.2 as [er|];
        do 4 eexists; (split; [reflexivity |]);
        rewrite Hc, Hn; repeat split; try congruence. }
    destruct (is_BOM _).
    + rewrite (Discard_at h s σ 3 Hh Hnil).
      destruct (advance_kind s (bytes.drop 3 (readable s).1)) as (Hc & Hn & _).
      eapply Hread; [apply lookup_upd; exact Hlt | congruence | exact Hc | reflexivity].
    + eapply Hread; [exact Hh | exact Hnil | reflexivity | now apply upd_same].
  - exists [], None, (Some (end_error (readable s).2)), s.
    rewrite (upd_same h s σ Hh). repeat split; [exact Hnil | discriminate].
Qed.

Lemma emit_run (ev : Event) (σ : State) : emit ev σ = (Returns tt, add_events [ev] σ).
Proof. reflexivity. Qed.

Lemma add_events_app (a b : list Event) (σ : State) :
  add_events b (add_events a σ) = add_events (a ++ b) σ.
Proof. unfold add_events. cbn. now rewrite app_assoc. Qed.

Lemma upd_add_events (h : nat) (s : Stream) (evs : list Event) (σ : State) :
  upd h s (add_events evs σ) = add_events evs (upd h s σ).
Proof. reflexivity. Qed.

Lemma load_after_header_error (env : Env) (p d t : string) (h : nat) (σ σ1 : State)
    (hdr : list string) (br : Reader) (e : error) (s1 : Stream) :
  csvHeader (Some h) σ = (Returns (hdr, br, Some e), σ1) ->
  streams σ1 !! h = Some s1 ->
  s_chain s1 = Own ->
  load env p d t (Some h) σ = (Returns (Some e), upd h (close_mark s1) σ1).
Proof.
  intros Hcsv Hh Hown. unfold load. unfold_M. rewrite Hcsv.
  unfold defer. now rewrite (Close_own h s1 σ1 Hh Hown).
Qed.

Lemma load_after_header (env : Env) (p d t : string) (h : nat) (σ σ1 : State)
    (hdr : list string) (s1 : Stream) :
  csvHeader (Some h) σ = (Returns (hdr, Some h, None), σ1) ->
  streams σ1 !! h = Some s1 ->
  s_nilsrc s1 = false ->
  s_chain s1 = Own ->
  let schema := map (sanitize env) hdr in
  let rows := (fst (readable s1),
               if is_EOF (Some (end_error (snd (readable s1)))) then None
               else Some (end_error (snd (readable s1)))) in
  let drained := upd h (close_mark (advance s1 "")) σ1 in
  load env p d t (Some h) σ
  = match bigquery_NewClient env p with
    | Some e =>
        (Returns (Some e), add_events [EvBQClient p] (upd h (close_mark s1) σ1))
    | None =>
        match bigquery_Run env d t schema rows with
        | Some e =>
            (Returns (Some e),
             add_events [EvBQClient p; EvBQRun d t schema (fst rows)] drained)
        | None =>
            (Returns (match bigquery_Wait env d t with
                      | Some e => Some e
                      | None => bigquery_Status env d t
                      end),
             add_events [EvBQClient p; EvBQRun d t schema (fst rows); EvBQWait]
                        drained)
        end
    end.
Proof.
  intros Hcsv Hh Hnil Hown schema rows drained.
  assert (Hlt : h < length (streams σ1)) by (eapply lookup_lt_Some; eauto).
  unfold load. unfold_M. rewrite Hcsv.
  unfold defer. rewrite emit_run.
  destruct (bigquery_NewClient env p) as [e|].
  { rewrite (Close_own h s1 (add_events [EvBQClient p] σ1) Hh Hown). reflexivity. }
  rewrite (ReadAll_at h s1 (add_events [EvBQClient p] σ1) Hh Hnil).
  fold rows. rewrite emit_run.
  fold (sanitize env). fold schema.
  assert (Hc : forall evs,
             io.Close (Some h) (add_events evs (upd h (advance s1 "") σ1))
             = (Returns None, add_events evs drained)).
  { intros evs.
    rewrite (Close_own h (advance s1 "") _).
    - subst drained. unfold upd, add_events. cbn. now rewrite list_insert_insert_eq.
    - cbn. now apply list_lookup_insert_eq.
    - destruct (advance_kind s1 "") as (-> & _). exact Hown. }
  rewrite upd_add_events, add_events_app. cbn [app].
  destruct (bigquery_Run env d t schema rows) as [e|].
  { now rewrite Hc. }
  rewrite emit_run, add_events_app. cbn [app].
  destruct (bigquery_Wait env d t) as [e|]; now rewrite Hc.
Qed.

(** X15.  On a stream with fewer than 3 unread bytes (the empty stream, for
    one) [load] returns the error of [Peek], closes the stream, and makes no
    call to BigQuery: the trace is unchanged. *)
Theorem load_short_stream (env : Env) (p d t : string) (h : nat) (s : Stream)
    (σ : State) :
  streams σ !! h = Some s ->
  s_nilsrc s = false ->
  s_chain s = Own ->
  String.length (s_data s) < 3 ->
  load env p d t (Some h) σ
  = (Returns (Some (end_error (snd (readable s)))), upd h (close_mark s) σ).
Proof.
  intros Hh Hnil Hown Hlen.
  assert (Hcsv : csvHeader (Some h) σ
                 = (Returns ([], None, Some (end_error (snd (readable s)))), σ)).
  { unfold csvHeader. unfold_M. rewrite (Peek_at h s σ 3 Hh Hnil).
    assert (E : (3 <=? String.length (fst (readable s))) = false).
    { apply Nat.leb_gt. unfold readable. destruct (s_closed s); simpl; lia. }
    now rewrite E. }
  exact (load_after_header_error env p d t h σ σ [] None _ s Hcsv Hh Hown).
Qed.

(** X16.  On an open stream holding the byte-order mark, a header line and
    the rows, [load] makes the client and, when that succeeds, runs one load
    job whose schema holds the sanitized header names in order and whose
    data is exactly the rows after the header line; it waits for the job
    only when the job started, returns the first error met, and closes the
    stream in every case. *)
Theorem load_sends_rows (env : Env) (p d t : string) (h : nat) (s : Stream)
    (σ : State) (cells : list cell) (eol rest : string) :
  streams σ !! h = Some s ->
  s_nilsrc s = false ->
  s_closed s = false ->
  s_chain s = Own ->
  Forall cell_ok cells ->
  bytes.Join (map cell_text cells) "," <> ""%string ->
  line_end (bytes.Join (map cell_text cells) ",") eol ->
  s_data s = BOM +:+ bytes.Join (map cell_text cells) "," +:+ eol +:+ rest ->
  let schema := map (sanitize env) (map cell_value cells) in
  let rows := (rest, if is_EOF (Some (end_error (s_end s))) then None
                     else Some (end_error (s_end s))) in
  let drained := upd h (close_mark (with_data s "")) σ in
  load env p d t (Some h) σ
  = match bigquery_NewClient env p with
    | Some e =>
        (Returns (Some e),
         add_events [EvBQClient p] (upd h (close_mark (with_data s rest)) σ))
    | None =>
        match bigquery_Run env d t schema rows with
        | Some e =>
            (Returns (Some e),
             add_events [EvBQClient p; EvBQRun d t schema rest] drained)
        | None =>
            (Returns (match bigquery_Wait env d t with
                      | Some e => Some e
                      | None => bigquery_Status env d t
                      end),
             add_events [EvBQClient p; EvBQRun d t schema rest; EvBQWait] drained)
        end
    end.
Proof.
  intros Hh Hnil Hopen Hown Hall Hne Heol Hdata schema rows drained.
  assert (Hlt : h < length (streams σ)) by (eapply lookup_lt_Some; eauto).
  assert (Hcsv : csvHeader (Some h) σ
                 = (Returns (map cell_value cells, Some h, None),
                    upd h (with_data s rest) σ)).
  { rewrite (csvHeader_after_bom h s σ _ Hh Hnil Hopen Hdata).
    now rewrite (readRecord_header_line cells eol rest (s_end s) Hall Hne Heol). }
  rewrite (load_after_header env p d t h σ _ _ (with_data s rest) Hcsv
             (lookup_upd h _ σ Hlt) Hnil Hown).
  unfold readable, advance. cbn [with_data s_closed s_data s_end fst snd].
  rewrite Hopen. cbn [fst snd with_data s_closed s_data s_end s_nilsrc s_chain].
  fold schema. fold rows. rewrite !upd_upd. reflexivity.
Qed.

(** X17.  [load] on a stream of its own always returns, and the stream is
    closed when it does, whatever the content of the stream and whatever
    BigQuery answers. *)
Theorem load_closes_stream (env : Env) (p d t : string) (h : nat) (s : Stream)
    (σ : State) :
  streams σ !! h = Some s ->
  s_nilsrc s = false ->
  s_chain s = Own ->
  exists res σ' s',
    load env p d t (Some h) σ = (Returns res, σ') /\
    streams σ' !! h = Some s' /\ s_closed s' = true.
Proof.
  intros Hh Hnil Hown.
  assert (Hlt : h < length (streams σ)) by (eapply lookup_lt_Some; eauto).
  destruct (csvHeader_returns h s σ Hh Hnil)
    as (hdr & br & err & s1 & Hcsv & Hc1 & Hn1 & Hbr).
  rewrite Hown in Hc1.
  pose proof (lookup_upd h s1 σ Hlt) as H1.
  destruct err as [e|].
  - rewrite (load_after_header_error env p d t h σ _ hdr br e s1 Hcsv H1 Hc1).
    eexists _, _, (close_mark s1). split; [reflexivity |]. split; [| reflexivity].
    apply lookup_upd. cbn. now rewrite length_insert.
  - rewrite (Hbr eq_refl) in Hcsv.
    rewrite (load_after_header env p d t h σ _ hdr s1 Hcsv H1 Hn1 Hc1).
    assert (Hl : h < length (streams (upd h s1 σ)))
      by (cbn; now rewrite length_insert).
    destruct (bigquery_NewClient env p);
      [eexists _, _, (close_mark s1)
      | destruct (bigquery_Run env d t _ _);
        eexists _, _, (close_mark (advance s1 ""))];
      (split; [reflexivity |]); (split; [| reflexivity]);
      cbn [add_events streams]; apply lookup_upd; exact Hl.
Qed.

Section Emits.
Context {A B : Type} (P : Event -> Prop).

Lemma emits_keeps_trace (m : M A) : keeps_trace m -> emits P m.
Proof. intros H σ. exists []. rewrite H, app_nil_r. split; [reflexivity | constructor]. Qed.

Lemma emits_ret (a : A) : emits P (mret a : M A).
Proof. apply emits_keeps_trace, keeps_trace_ret. Qed.

Lemma emits_emit (ev : Event) : P ev -> emits P (emit ev).
Proof. intros H σ. exists [ev]. split; [reflexivity | now repeat constructor]. Qed.

Lemma emits_bind (m : M A) (k : A -> M B) :
  emits P m -> (forall a, emits P (k a)) -> emits P (m ≫= k).
Proof.
  intros Hm Hk σ. unfold_M. destruct (Hm σ) as (evs & Ht & HP).
  destruct (m σ) as [[a|msg|c] σ1]; simpl in *; eauto.
  destruct (Hk a σ1) as (evs' & Ht' & HP').
  exists (evs ++ evs'). rewrite Ht', Ht, app_assoc. split; [reflexivity |].
  now apply Forall_app.
Qed.

Lemma emits_defer (d : M B) (body : M A) :
  emits P d -> emits P body -> emits P (defer d body).
Proof.
  intros Hd Hb σ. unfold defer. destruct (Hb σ) as (evs & Ht & HP).
  destruct (body σ) as [[a|msg|c] σ1]; simpl in *; eauto;
    destruct (Hd σ1) as (evs' & Ht' & HP');
    destruct (d σ1) as [[b|msg'|c'] σ2]; simpl in *;
    exists (evs ++ evs'); rewrite Ht', Ht, app_assoc;
    (split; [reflexivity | now apply Forall_app]).
Qed.
End Emits.

Lemma keeps_trace_csvHeader (r : Reader) : keeps_trace (csvHeader r).
Proof.
  unfold csvHeader, bufio.Peek, bufio.Discard, csv.Read.
  apply keeps_trace_bind.
  { apply keeps_trace_bind; [apply keeps_trace_reading |]. intros [h s].
    destruct (readable s) as [d e].
    destruct (3 <=? String.length d); apply keeps_trace_ret. }
  intros [bom [e|]]; [apply keeps_trace_ret |].
  apply keeps_trace_bind.
  { destruct (is_BOM bom); [| apply keeps_trace_ret].
    apply keeps_trace_bind; [apply keeps_trace_reading |]. intros [h s].
    destruct (readable s) as [d e]. apply keeps_trace_set_stream. }
  intros _. apply keeps_trace_bind.
  { apply keeps_trace_bind; [apply keeps_trace_reading |]. intros [h s].
    destruct (csv.readRecord (readable s)) as [[record err] [d e]].
    apply keeps_trace_bind; [apply keeps_trace_set_stream |].
    intros _. apply keeps_trace_ret. }
  intros [header [e|]]; apply keeps_trace_ret.
Qed.

Lemma emits_request (env : Env) (method url : string) (body : gmap string string) :
  emits backstage (request env method url body).
Proof.
  intros σ. pose proof (request_cases env method url body σ) as H.
  destruct (http_NewRequest env method url) as [er|].
  { rewrite H. exists []. cbn. rewrite app_nil_r. split; [reflexivity | constructor]. }
  destruct (http_Do env method url body) as [er | [[code content] ending]];
    simpl in H; rewrite H; eexists; (split; [reflexivity | repeat constructor]).
Qed.

Lemma emits_tweak_all (env : Env) (ts : list Tweak) (reader : Reader) :
  emits backstage (tweak_all env ts reader).
Proof.
  revert reader; induction ts as [|t ts IH]; intros reader; simpl.
  - apply emits_ret.
  - apply emits_bind; [apply emits_keeps_trace, keeps_trace_tweak |].
    intros [r [e|]]; [apply emits_ret | apply IH].
Qed.

Lemma emits_preExtract (env : Env) (p : PreExtraction) (e : Extraction) :
  emits backstage (preExtract env p e).
Proof.
  unfold preExtract.
  destruct (_ && _); [apply emits_ret |].
  apply emits_bind; [apply emits_request |].
  intros [reader [er|]]; [apply emits_ret |].
  apply emits_defer; [apply emits_keeps_trace, keeps_trace_Close |].
  apply emits_bind; [apply emits_keeps_trace, keeps_trace_ReadAll |].
  intros [b [er|]].
  { intros σ. exists []. rewrite app_nil_r. split; [reflexivity | constructor]. }
  apply emits_bind; [| intros re; apply emits_ret].
  unfold MustCompile. destruct (regexp_Compile env (p_Pattern p));
    apply emits_keeps_trace; [apply keeps_trace_panic | apply keeps_trace_ret].
Qed.

Lemma emits_load (env : Env) (p d t : string) (r : Reader) :
  emits backstage (load env p d t r).
Proof.
  unfold load.
  apply emits_bind; [apply emits_keeps_trace, keeps_trace_csvHeader |].
  intros [[hdr br] err].
  apply emits_defer; [apply emits_keeps_trace, keeps_trace_Close |].
  destruct err as [e|]; [apply emits_ret |].
  apply emits_bind; [apply emits_emit; reflexivity | intros _].
  destruct (bigquery_NewClient env p); [apply emits_ret |].
  apply emits_bind; [apply emits_keeps_trace, keeps_trace_ReadAll | intros rows].
  apply emits_bind; [apply emits_emit; reflexivity | intros _].
  destruct (bigquery_Run env d t _ rows); [apply emits_ret |].
  apply emits_bind; [apply emits_emit; reflexivity | intros _].
  destruct (bigquery_Wait env d t); apply emits_ret.
Qed.

(** X18.  When [handler] returns it has answered exactly once, at the end:
    the Content-Type header is set first, nothing of the response is
    written in between, and the run ends with status 500 and the error
    text or with status 200 and the empty object. *)
Theorem handler_answers_once (env : Env) (requestBody : string) (σ : State) :
  fst (handler env requestBody σ) = Returns tt ->
  exists pre code text,
    trace (snd (handler env requestBody σ))
    = trace σ ++ EvSetHeader "Content-Type" "application/json"
                 :: pre ++ [EvWriteHeader code; EvWrite text] /\
    Forall backstage pre /\
    ((code = 500%Z /\ text = error_json) \/ (code = 200%Z /\ text = "{}"%string)).
Proof.
  unfold handler. unfold_M. rewrite emit_run.
  set (σ0 := add_events [EvSetHeader "Content-Type" "application/json"] σ).
  assert (Hfin : forall pre σ1,
            trace σ1 = trace σ0 ++ pre -> Forall backstage pre ->
            exists pre' code text,
              trace (snd (internal_server_error σ1))
              = trace σ ++ EvSetHeader "Content-Type" "application/json"
                  :: pre' ++ [EvWriteHeader code; EvWrite text] /\
              Forall backstage pre' /\
              ((code = 500%Z /\ text = error_json) \/
               (code = 200%Z /\ text = "{}"%string))).
  { intros pre σ1 Ht HP. rewrite internal_server_error_run. cbn [snd trace].
    exists pre, 500%Z, error_json. rewrite Ht. subst σ0. cbn [add_events trace].
    rewrite <- !app_assoc. cbn [app]. auto. }
  destruct (json_Decode env requestBody) as [er|d].
  { intros _. apply (Hfin [] σ0); [now rewrite app_nil_r | constructor]. }
  destruct (emits_preExtract env (d_PreExtraction d) (d_Extraction d) σ0)
    as (ev1 & Ht1 & HP1).
  destruct (preExtract env (d_PreExtraction d) (d_Extraction d) σ0)
    as [[[e [er|]]|msg|c] σ1]; cbn [fst snd] in *; try discriminate.
  { intros _. now apply (Hfin ev1 σ1). }
  destruct (emits_request env (e_Method e) (e_Url e) (e_Body e) σ1)
    as (ev2 & Ht2 & HP2).
  destruct (request env (e_Method e) (e_Url e) (e_Body e) σ1)
    as [[[reader [er|]]|msg|c] σ2]; cbn [fst snd] in *; try discriminate.
  { intros _. apply (Hfin (ev1 ++ ev2) σ2);
      [rewrite Ht2, Ht1; now rewrite app_assoc | now apply Forall_app]. }
  destruct (emits_tweak_all env (d_Tweaks d) reader σ2) as (ev3 & Ht3 & HP3).
  destruct (tweak_all env (d_Tweaks d) reader σ2)
    as [[[reader' [er|]]|msg|c] σ3]; cbn [fst snd] in *; try discriminate.
  { intros _. apply (Hfin (ev1 ++ ev2 ++ ev3) σ3);
      [rewrite Ht3, Ht2, Ht1; now rewrite <- !app_assoc
      | rewrite !Forall_app; repeat split; assumption]. }
  destruct (emits_load env (l_ProjectID (d_Loading d)) (l_DatasetID (d_Loading d))
              (l_TableID (d_Loading d)) reader' σ3) as (ev4 & Ht4 & HP4).
  destruct (load env (l_ProjectID (d_Loading d)) (l_DatasetID (d_Loading d))
              (l_TableID (d_Loading d)) reader' σ3)
    as [[[er|]|msg|c] σ4]; cbn [fst snd] in *; try discriminate.
  { intros _. apply (Hfin (ev1 ++ ev2 ++ ev3 ++ ev4) σ4).
    - rewrite Ht4, Ht3, Ht2, Ht1. now rewrite <- !app_assoc.
    - rewrite !Forall_app; repeat split; assumption. }
  intros _. rewrite !emit_run. cbn [snd add_events trace].
  exists (ev1 ++ ev2 ++ ev3 ++ ev4), 200%Z, "{}"%string.
  rewrite Ht4, Ht3, Ht2, Ht1. subst σ0. cbn [add_events trace].
  rewrite <- !app_assoc. cbn [app]. split; [reflexivity |].
  split; [rewrite !Forall_app; repeat split; assumption | auto].
Qed.

(** X19.  [load] returns a nil error only after the whole job: whatever the
    reader and the state, a nil error means that the client was made, one
    load job was started and it was waited for, in this order, and that
    [load] did nothing else to the outside. *)
Theorem load_ok_ran_the_job (env : Env) (p d t : string) (r : Reader) (σ : State) :
  fst (load env p d t r σ) = Returns None ->
  exists schema rows,
    trace (snd (load env p d t r σ))
    = trace σ ++ [EvBQClient p; EvBQRun d t schema rows; EvBQWait].
Proof.
  unfold load. unfold_M.
  pose proof (keeps_trace_csvHeader r σ) as H1.
  destruct (csvHeader r σ) as [[[[hdr br] err]|msg|c] σ1]; cbn [fst snd] in *;
    try discriminate.
  unfold defer.
  assert (Hclose : forall (res : option error) σ2 evs,
            trace σ2 = trace σ ++ evs ->
            fst (let (o, σ'') := io.Close r σ2 in
                 match o with
                 | Returns _ => (Returns res, σ'')
                 | Panics msg => (Panics msg, σ'')
                 | Exits c => (Exits c, σ'')
                 end) = Returns None ->
            res = None /\
            trace (snd (let (o, σ'') := io.Close r σ2 in
                        match o with
                        | Returns _ => (Returns res, σ'')
                        | Panics msg => (Panics msg, σ'')
                        | Exits c => (Exits c, σ'')
                        end)) = trace σ ++ evs).
  { intros res σ2 evs Ht. pose proof (keeps_trace_Close r σ2) as Hk.
    destruct (io.Close r σ2) as [[x|msg|c] σ3]; cbn [fst snd] in *;
      try discriminate.
    intros [= ->]. split; [reflexivity | congruence]. }
  assert (Hpanic : forall (msg : string) σ2,
            fst (let (o, σ'') := io.Close r σ2 in
                 match o with
                 | Returns _ => (Panics msg, σ'')
                 | Panics msg' => (Panics msg', σ'')
                 | Exits c => (Exits c, σ'')
                 end) <> (Returns None : outcome (option error))).
  { intros msg σ2. destruct (io.Close r σ2) as [[x|m|c] σ3]; discriminate. }
  destruct err as [e|].
  { intros H. destruct (Hclose (Some e) σ1 [] ltac:(now rewrite app_nil_r) H).
    discriminate. }
  rewrite emit_run.
  destruct (bigquery_NewClient env p) as [e|].
  { intros H.
    destruct (Hclose (Some e) (add_events [EvBQClient p] σ1) [EvBQClient p]
                ltac:(cbn; now rewrite H1) H). discriminate. }
  pose proof (keeps_trace_ReadAll br (add_events [EvBQClient p] σ1)) as H2.
  destruct (io.ReadAll br (add_events [EvBQClient p] σ1)) as [[rows|msg|c] σ2];
    cbn [fst snd] in *.
  2: { intros H. now apply Hpanic in H. }
  2: { discriminate. }
  rewrite emit_run.
  set (schema := map (fun v => ReplaceAllString (invalidCharacters env) v "_") hdr).
  destruct (bigquery_Run env d t schema rows) as [e|].
  { intros H.
    destruct (Hclose (Some e) (add_events [EvBQRun d t schema rows.1] σ2)
                [EvBQClient p; EvBQRun d t schema rows.1]
                ltac:(cbn; rewrite H2; cbn; rewrite H1; now rewrite <- app_assoc) H).
    discriminate. }
  rewrite emit_run. rewrite add_events_app. cbn [app].
  intros H. exists schema, rows.1.
  assert (Ht : trace (add_events [EvBQRun d t schema rows.1; EvBQWait] σ2)
               = trace σ ++ [EvBQClient p; EvBQRun d t schema rows.1; EvBQWait]).
  { cbn. rewrite H2. cbn. rewrite H1. now rewrite <- app_assoc. }
  destruct (bigquery_Wait env d t) as [e|].
  - destruct (Hclose (Some e) _ _ Ht H). discriminate.
  - now destruct (Hclose (bigquery_Status env d t) _ _ Ht H).
Qed.

(** ** The schema of the load job *)

Lemma in_allowed_set_spec (env : Env) (r : Z) :
  in_allowed_set env r = true <-> allowed_rune env r.
Proof.
  unfold in_allowed_set, allowed_rune. cbn [existsb map In].
  rewrite !orb_true_iff, !Z.eqb_eq. intuition congruence.
Qed.

Lemma invalidCharacters_in_allowed_set (env : Env) (r : Z) :
  invalidCharacters env r = negb (in_allowed_set env r).
Proof.
  destruct (in_allowed_set env r) eqn:E.
  - apply in_allowed_set_spec, invalidCharacters_allowed in E. now rewrite E.
  - destruct (invalidCharacters env r) eqn:E'; [reflexivity |].
    apply invalidCharacters_allowed, in_allowed_set_spec in E'. congruence.
Qed.

Lemma ReplaceAllString_column_name (env : Env) (name : string) :
  ReplaceAllString (invalidCharacters env) name "_" = column_name env name.
Proof.
  unfold ReplaceAllString, column_name, runes.
  rewrite replace_runes_by_rune by lia. f_equal.
  apply map_ext. intros [r bs]. rewrite invalidCharacters_in_allowed_set.
  now destruct (in_allowed_set env r).
Qed.

Lemma defer_keeps_trace {A B : Type} (d : M B) (body : M A) (σ : State) :
  keeps_trace d ->
  trace (snd (defer d body σ)) = trace (snd (body σ)).
Proof.
  intros Hd. unfold defer.
  destruct (body σ) as [[a|msg|c] σ1]; cbn [snd]; try reflexivity;
    specialize (Hd σ1); destruct (d σ1) as [[b|msg'|c'] σ2]; exact Hd.
Qed.

Lemma csvHeader_success (r br : Reader) (σ σ1 : State) (hdr : list string) :
  csvHeader r σ = (Returns (hdr, br, None), σ1) ->
  exists h s1, br = Some h /\ streams σ1 !! h = Some s1 /\ s_nilsrc s1 = false /\
               trace σ1 = trace σ.
Proof.
  intros Hcsv.
  destruct r as [h|]; [| discriminate Hcsv].
  destruct (streams σ !! h) as [s|] eqn:Hh.
  2: { unfold csvHeader, bufio.Peek, reading, deref in Hcsv. unfold_M.
       rewrite Hh in Hcsv. discriminate Hcsv. }
  destruct (s_nilsrc s) eqn:Hnil.
  { unfold csvHeader, bufio.Peek, reading, deref in Hcsv. unfold_M.
    rewrite Hh, Hnil in Hcsv. discriminate Hcsv. }
  assert (Hlt : h < length (streams σ)) by (eapply lookup_lt_Some; eauto).
  destruct (csvHeader_returns h s σ Hh Hnil)
    as (hdr' & br' & err' & s1 & Heq & _ & Hn1 & Hbr).
  rewrite Hcsv in Heq. injection Heq as -> -> <- ->.
  exists h, s1. rewrite (Hbr eq_refl).
  split; [reflexivity |]. split; [now apply lookup_upd |]. split; [exact Hn1 | reflexivity].
Qed.

(** C9.  Whenever [csvHeader] returns a header, the load job that [load]
    starts (it starts one exactly when the BigQuery client can be made) has
    as its schema the column names of all the header names, in order; it is
    the only job.  The column name of a header name is that name with every
    rune outside the set replaced by an underscore and the bytes of every
    other rune kept, the runes being all of the name in order; the set is:
    letters, numbers, connector and dash punctuation, marks, and the ten
    literal characters.  The three names of the examples come out as
    stated. *)
Theorem load_sanitizes_columns (env : Env) (p d t : string) (r br : Reader)
    (σ σ1 : State) (hdr : list string) :
  csvHeader r σ = (Returns (hdr, br, None), σ1) ->
  (exists rows tail,
     trace (snd (load env p d t r σ))
     = trace σ ++ EvBQClient p ::
         match bigquery_NewClient env p with
         | Some _ => []
         | None => EvBQRun d t (map (column_name env) hdr) rows :: tail
         end /\
     (tail = [] \/ tail = [EvBQWait])) /\
  (forall name, bytes.concat (map snd (runes name)) = name) /\
  (forall r, in_allowed_set env r = true <-> allowed_rune env r) /\
  column_name env "a-b" = "a-b"%string /\
  column_name env "c#1" = "c#1"%string /\
  column_name env "a b" = "a_b"%string.
Proof.
  intros Hcsv.
  split; [| split; [intros name; unfold runes; now apply runes_from_cover
                   | split; [apply in_allowed_set_spec
                            | repeat split; reflexivity]]].
  destruct (csvHeader_success r br σ σ1 hdr Hcsv) as (h & s1 & -> & Hh & Hnil & Ht).
  unfold load. unfold_M. rewrite Hcsv.
  rewrite defer_keeps_trace by apply keeps_trace_Close.
  rewrite emit_run.
  destruct (bigquery_NewClient env p) as [e|].
  { exists ""%string, []. cbn. rewrite Ht. auto. }
  rewrite (ReadAll_at h s1 (add_events [EvBQClient p] σ1) Hh Hnil).
  rewrite emit_run.
  replace (map (fun v => ReplaceAllString (invalidCharacters env) v "_") hdr)
    with (map (column_name env) hdr)
    by (apply map_ext; intros v; symmetry; apply ReplaceAllString_column_name).
  exists (fst (readable s1)).
  destruct (bigquery_Run env d t _ _) as [e|].
  { exists []. cbn. rewrite Ht, <- app_assoc. auto. }
  rewrite emit_run.
  exists [EvBQWait].
  destruct (bigquery_Wait env d t) as [e|]; cbn; rewrite Ht, <- !app_assoc; auto.
Qed.

Lemma load_sanitizes_columns_witness :
  exists rows tail,
    trace (snd (load (sample_env 200 "") "p" "d" "t" (Some 0)
                  (one_stream ("a b,c#1,x y z" +:+ String LF "1,2,3"))))
    = [EvBQClient "p";
       EvBQRun "d" "t" ["a_b"; "c#1"; "x_y_z"]%string rows] ++ tail.
Proof.
  destruct (load_sanitizes_columns (sample_env 200 "") "p" "d" "t" (Some 0) (Some 0)
              (one_stream ("a b,c#1,x y z" +:+ String LF "1,2,3"))
              (one_stream "1,2,3") ["a b"; "c#1"; "x y z"]%string eq_refl)
    as [(rows & tail & H & _) _].
  exists rows, tail. exact H.
Defined.

(** ** Concrete cases *)

Lemma tweak_convert_unsupported_witness :
  tweak (sample_env 200 "") {| t_Call := "convert"; t_Args := ∅ |} (Some 0)
        (one_stream "abc")
  = (Returns (None, Some (ErrUnsupportedCharset "")), one_stream "abc").
Proof. apply tweak_convert_unsupported; reflexivity. Defined.

Lemma convert_then_Close_witness :
  let env := lab_env 200 "" (inr []) None None (Some (fun b => b)) in
  convert env "utf-8" (Some 0) (one_stream "abc")
  = (Returns (Some 1, None),
     {| streams := [plain_stream "abc"; wrapper (fun b => b) 0 (plain_stream "abc")];
        trace := [] |}) /\
  io.Close (Some 1)
    {| streams := [plain_stream "abc"; wrapper (fun b => b) 0 (plain_stream "abc")];
       trace := [] |}
  = (Returns None,
     {| streams := [close_mark (plain_stream "abc");
                    close_mark (wrapper (fun b => b) 0 (plain_stream "abc"))];
        trace := [] |}).
Proof.
  intros env.
  apply (convert_then_Close env "utf-8" (fun b => b) 0 (plain_stream "abc")
           (one_stream "abc")); reflexivity.
Defined.

Lemma convert_nil_defers_the_panic_witness :
  let env := lab_env 200 "" (inr []) None None (Some (fun b => b)) in
  convert env "utf-8" None no_streams
  = (Returns (Some 0, None), {| streams := [nil_wrapper]; trace := [] |}) /\
  load env "p" "d" "t" (Some 0) {| streams := [nil_wrapper]; trace := [] |}
  = (Panics nil_dereference, {| streams := [nil_wrapper]; trace := [] |}) /\
  unzip env (Some 0) {| streams := [nil_wrapper]; trace := [] |}
  = (Panics nil_dereference, {| streams := [nil_wrapper]; trace := [] |}) /\
  io.Close (Some 0) {| streams := [nil_wrapper]; trace := [] |}
  = (Panics nil_dereference, {| streams := [nil_wrapper]; trace := [] |}).
Proof.
  intros env.
  apply (convert_nil_defers_the_panic env "utf-8" (fun b => b) no_streams
           "p" "d" "t"); reflexivity.
Defined.

Lemma unzip_read_error_witness :
  unzip (sample_env 200 "") (Some 0) {| streams := [broken_stream "PK"]; trace := [] |}
  = (Returns (None, Some (ErrExternal "net" "connection reset by peer")),
     {| streams := [broken_stream ""]; trace := [] |}).
Proof.
  apply (unzip_read_error (sample_env 200 "") 0 (broken_stream "PK")
           {| streams := [broken_stream "PK"]; trace := [] |});
    try reflexivity.
  discriminate.
Defined.

Lemma unzip_bad_archive_witness :
  unzip (lab_env 200 "" (inl (ErrExternal "zip" "not a valid zip file")) None None None)
        (Some 0) (one_stream "text")
  = (Returns (None, Some (ErrExternal "zip" "not a valid zip file")),
     {| streams := [close_mark (plain_stream "")]; trace := [] |}).
Proof.
  apply (unzip_bad_archive _ 0 (plain_stream "text") (one_stream "text"));
    reflexivity.
Defined.

Lemma request_status_error_leaves_body_open_witness :
  fst (request (sample_env 404 "not found") "GET" "http://example.com/x" ∅ no_streams)
  = Returns (None, Some (ErrStatus 404 ∅)) /\
  streams (snd (request (sample_env 404 "not found") "GET" "http://example.com/x" ∅
                  no_streams))
  = [plain_stream "not found"].
Proof.
  apply (request_status_error_leaves_body_open (sample_env 404 "not found")
           "GET" "http://example.com/x" ∅ no_streams 404 "not found" None);
    [reflexivity | reflexivity | lia].
Defined.

Lemma preExtract_success_witness :
  let env := lab_env 200 "banana" (inr []) None (Some (byte_pattern "a")) None in
  let p := {| p_Method := "GET"; p_Url := "http://example.com/token"; p_Body := ∅;
              p_Pattern := "a" |} in
  let e := {| e_Method := "POST"; e_Url := "http://example.com/data";
              e_Body := {[ "k" := "$0" ]}%string |} in
  fst (preExtract env p e no_streams)
  = Returns ({| e_Method := "POST"; e_Url := "http://example.com/data";
                e_Body := formatMap {[ "k" := "$0" ]}%string (byte_pattern "a") "banana" |},
             None).
Proof.
  intros env p e.
  assert (H1 : p_Method p <> ""%string \/ p_Url p <> ""%string) by (left; discriminate).
  assert (H4 : (200 <= 299)%Z) by lia.
  pose proof (preExtract_success env p e no_streams 200 "banana" None
                (byte_pattern "a") H1 eq_refl eq_refl H4 eq_refl eq_refl) as [H _].
  exact (f_equal fst H).
Defined.

Lemma csvHeader_skips_blank_lines_witness :
  csvHeader (Some 0)
    (one_stream (BOM +:+ String LF (String LF ("a,b" +:+ String LF "1,2"))))
  = (Returns (["a"; "b"]%string, Some 0, None), one_stream "1,2").
Proof.
  apply (csvHeader_skips_blank_lines 0
           (plain_stream (BOM +:+ String LF (String LF ("a,b" +:+ String LF "1,2"))))
           (one_stream (BOM +:+ String LF (String LF ("a,b" +:+ String LF "1,2"))))
           2 [Plain "a"; Plain "b"] (String LF "") "1,2");
    try reflexivity.
  - repeat constructor.
  - discriminate.
  - left. split; reflexivity.
Defined.

Lemma csvHeader_no_record_witness :
  csvHeader (Some 0) (one_stream (BOM +:+ String LF ""))
  = (Returns ([], None, Some io_EOF), one_stream "").
Proof.
  apply (csvHeader_no_record 0 (plain_stream (BOM +:+ String LF ""))
           (one_stream (BOM +:+ String LF "")) 1); reflexivity.
Defined.

Lemma load_short_stream_witness :
  load (sample_env 200 "") "p" "d" "t" (Some 0) (one_stream "")
  = (Returns (Some io_EOF),
     {| streams := [close_mark (plain_stream "")]; trace := [] |}).
Proof.
  apply (load_short_stream (sample_env 200 "") "p" "d" "t" 0 (plain_stream "")
           (one_stream "")); try reflexivity.
  simpl. lia.
Defined.

Lemma load_sends_rows_witness :
  load (sample_env 200 "") "p" "d" "t" (Some 0)
       (one_stream (BOM +:+ "a b,c" +:+ String LF "1,2"))
  = (Returns None,
     {| streams := [close_mark (plain_stream "")];
        trace := [EvBQClient "p"; EvBQRun "d" "t" ["a_b"; "c"]%string "1,2";
                  EvBQWait] |}).
Proof.
  apply (load_sends_rows (sample_env 200 "") "p" "d" "t" 0
           (plain_stream (BOM +:+ "a b,c" +:+ String LF "1,2"))
           (one_stream (BOM +:+ "a b,c" +:+ String LF "1,2"))
           [Plain "a b"; Plain "c"] (String LF "") "1,2"); try reflexivity.
  - repeat constructor.
  - discriminate.
  - left. split; reflexivity.
Defined.

Lemma load_closes_stream_witness :
  exists res σ' s',
    load (sample_env 200 "") "p" "d" "t" (Some 0) (one_stream "x") = (Returns res, σ') /\
    streams σ' !! 0 = Some s' /\ s_closed s' = true.
Proof.
  apply (load_closes_stream (sample_env 200 "") "p" "d" "t" 0 (plain_stream "x"));
    reflexivity.
Defined.

Lemma handler_answers_once_witness :
  exists pre code text,
    trace (snd (handler (sample_env 200 "") "not json" no_streams))
    = trace no_streams ++ EvSetHeader "Content-Type" "application/json"
        :: pre ++ [EvWriteHeader code; EvWrite text] /\
    Forall backstage pre /\
    ((code = 500%Z /\ text = error_json) \/ (code = 200%Z /\ text = "{}"%string)).
Proof.
  apply (handler_answers_once (sample_env 200 "") "not json" no_streams).
  reflexivity.
Defined.

Lemma load_ok_ran_the_job_witness :
  exists schema rows,
    trace (snd (load (sample_env 200 "") "p" "d" "t" (Some 0)
                  (one_stream ("a,b" +:+ String LF "1,2"))))
    = [EvBQClient "p"; EvBQRun "d" "t" schema rows; EvBQWait].
Proof.
  exact (load_ok_ran_the_job (sample_env 200 "") "p" "d" "t" (Some 0)
           (one_stream ("a,b" +:+ String LF "1,2")) eq_refl).
Defined.
